(** * Verification of nim_tools: the index codec, the Nim solver [nimwin]
    and the seeded starting-position generator [nimgen].

    Python integers are unbounded: they are modelled as [Z], with
    [Z.lxor], [Z.land] and [Z.lnot] for [^], [&] and [~].  A raised
    exception is [None].  Pile indices are [nat]. *)

From Stdlib Require Import ZArith Lia Bool Ascii String.
From stdpp Require Import base list.

Open Scope Z_scope.

(* ------------------------------------------------------------------ *)
(** ** nimwin *)

Module NimWin.

(** [sum(1 for p in piles if f(p))] *)
Definition count_if (f : Z -> bool) (piles : list Z) : Z :=
  fold_left (fun acc p => if f p then acc + 1 else acc) piles 0.

(** The value of the variable [misere] when it is added to [sub]:
    [False] is 0, [True] is 1, and the parity case sets it to -1.
<<
    endgame = sum(1 for p in piles if p > 1) <= 1
    misere = misere and endgame
    if misere and sum(1 for p in piles if p > 0) % 2:
        misere = -1
>> *)
Definition misere_bias (piles : list Z) (misere : bool) : Z :=
  let endgame := count_if (fun p => 1 <? p) piles <=? 1 in
  let misere := misere && endgame in
  if misere then
    if negb (Z.modulo (count_if (fun p => 0 <? p) piles) 2 =? 0) then -1 else 1
  else 0.

(** [reduce(lambda i, j: i ^ j, piles)]: a [TypeError] on an empty tuple. *)
Definition reduce_xor (piles : list Z) : option Z :=
  match piles with
  | [] => None
  | p0 :: rest => Some (fold_left Z.lxor rest p0)
  end.

(** [match = sub & ~p] *)
Definition nimply (sub p : Z) : Z := Z.land sub (Z.lnot p).

(** The loop [for i, p in enumerate(piles)] over the state
    [(abjunct, opts)]; [i] is the index of the first pile of [ps]. *)
Fixpoint scan (sub : Z) (i : nat) (ps : list Z) (abjunct : Z) (opts : list nat)
  : Z * list nat :=
  match ps with
  | [] => (abjunct, opts)
  | p :: ps' =>
      let m := nimply sub p in
      let '(abjunct1, opts1) :=
        if m <? abjunct then (m, []) else (abjunct, opts) in
      let opts2 := if m =? abjunct1 then opts1 ++ [i] else opts1 in
      scan sub (S i) ps' abjunct1 opts2
  end.

Definition nimwin (piles : list Z) (misere : bool) : option (Z * list nat) :=
  let bias := misere_bias piles misere in
  match reduce_xor piles with
  | None => None
  | Some sub =>
      let '(sub1, opts) :=
        if negb (sub + bias =? 0) then
          let '(abjunct, opts) := scan sub 0 piles sub [] in
          (sub - 2 * abjunct, opts)
        else (sub, []) in
      Some (sub1 + bias, opts)
  end.

End NimWin.

(* ------------------------------------------------------------------ *)
(** ** alpha_index *)

Module AlphaIndex.

(** [int(a / b)] on Python integers: [a / b] is the true division, which
    rounds the exact quotient to the nearest double (ties to even) and
    raises [OverflowError] beyond the double range; [int] truncates
    toward zero.  [b = 0] raises [ZeroDivisionError]. *)
Definition round_pos_quotient (a b : Z) : option Z :=
  (* 0 < a, 0 < b: the significand [m] has 53 bits, the value is m * 2^e *)
  let scaled e :=
    if 0 <=? e then (a / (b * 2 ^ e), a mod (b * 2 ^ e), b * 2 ^ e)
    else (a * 2 ^ (- e) / b, a * 2 ^ (- e) mod b, b) in
  let e0 := Z.log2 a - Z.log2 b - 52 in
  let e := let '(m0, _, _) := scaled e0 in
           if m0 <? 2 ^ 52 then e0 - 1 else e0 in
  let '(m, r, d) := scaled e in
  let m := if d <? 2 * r then m + 1
           else if 2 * r <? d then m
           else if Z.even m then m else m + 1 in
  if 0 <=? e then
    if 2 ^ 1024 <=? m * 2 ^ e then None else Some (m * 2 ^ e)
  else Some (m / 2 ^ (- e)).

Definition int_true_div (a b : Z) : option Z :=
  if b =? 0 then None
  else if a =? 0 then Some 0
  else
    let sign := Z.sgn a * Z.sgn b in
    match round_pos_quotient (Z.abs a) (Z.abs b) with
    | Some q => Some (sign * q)
    | None => None
    end.

(** [floorval = lambda length: int((26**length-26)/25)] *)
Definition floorval (length : Z) : option Z :=
  int_true_div (26 ^ length - 26) 25.

(** [numalpha = '0123456789ABCDEFGHIJKLMNOPQRSTUVWXYZ'] *)
Definition numalpha : string := "0123456789ABCDEFGHIJKLMNOPQRSTUVWXYZ".

(** [numalpha[10:]] *)
Definition letters : string := substring 10 26 numalpha.

(** [str.upper] on ASCII characters. *)
Definition ascii_upper (c : ascii) : ascii :=
  let k := nat_of_ascii c in
  if (97 <=? k)%nat && (k <=? 122)%nat then ascii_of_nat (k - 32) else c.

Fixpoint str_upper (s : string) : string :=
  match s with
  | EmptyString => EmptyString
  | String c s' => String (ascii_upper c) (str_upper s')
  end.

(** [s.index(c)]: [ValueError] when [c] does not occur. *)
Fixpoint str_index (s : string) (c : ascii) : option nat :=
  match s with
  | EmptyString => None
  | String c' s' =>
      if Ascii.eqb c c' then Some 0%nat
      else option_map S (str_index s' c)
  end.

(** Digit value of a character for [int(s, base)]. *)
Definition digit_value (c : ascii) : option Z :=
  let k := nat_of_ascii c in
  if (48 <=? k)%nat && (k <=? 57)%nat then Some (Z.of_nat k - 48)
  else if (65 <=? k)%nat && (k <=? 90)%nat then Some (Z.of_nat k - 55)
  else if (97 <=? k)%nat && (k <=? 122)%nat then Some (Z.of_nat k - 87)
  else None.

Fixpoint int_base_acc (s : string) (base acc : Z) : option Z :=
  match s with
  | EmptyString => Some acc
  | String c s' =>
      match digit_value c with
      | Some d => if d <? base then int_base_acc s' base (acc * base + d) else None
      | None => None
      end
  end.

(** [int(s, base)] on a string of digit characters (the only strings the
    codec passes to it); the empty string raises [ValueError]. *)
Definition int_base (s : string) (base : Z) : option Z :=
  match s with
  | EmptyString => None
  | _ => int_base_acc s base 0
  end.

(** The string branch of [alpha_index] (decode):
<<
        lower = floorval(len(n))
        upper = ''
        for c in n.upper():
            upper += numalpha[numalpha[10:].index(c)]
        return lower + int(upper, 26)
>> *)
Fixpoint translate_digits (s : string) : option string :=
  match s with
  | EmptyString => Some EmptyString
  | String c s' =>
      match str_index letters c with
      | None => None
      | Some k =>
          match get k numalpha, translate_digits s' with
          | Some d, Some rest => Some (String d rest)
          | _, _ => None
          end
      end
  end.

Definition decode (n : string) : option Z :=
  match floorval (Z.of_nat (String.length n)) with
  | None => None
  | Some lower =>
      match translate_digits (str_upper n) with
      | None => None
      | Some upper =>
          match int_base upper 26 with
          | Some v => Some (lower + v)
          | None => None
          end
      end
  end.

(** The integer branch of [alpha_index] (encode).  Its string length is
    [alphalen(n) = int(log(25*n+26, 26))], a floating-point logarithm,
    which is a parameter here: the rest of the branch is
<<
        n -= floorval(strlen)
        upper = []
        while len(upper) < strlen:
            n, rem = divmod(n, 26)
            upper.append(numalpha[10:][rem])
        return ''.join(upper[::-1])
>> *)
Fixpoint encode_digits (fuel : nat) (n : Z) (acc : string) : option string :=
  match fuel with
  | O => Some acc
  | S fuel' =>
      match get (Z.to_nat (n mod 26)) letters with
      | Some c => encode_digits fuel' (n / 26) (String c acc)
      | None => None
      end
  end.

Definition encode (alphalen : Z -> Z) (n : Z) : option string :=
  let strlen := alphalen n in
  match floorval strlen with
  | None => None
  | Some fl => encode_digits (Z.to_nat strlen) (n - fl) EmptyString
  end.

(** Well-formed codec strings: only the letters A-Z. *)
Definition is_letter (c : ascii) : bool :=
  let k := nat_of_ascii c in (65 <=? k)%nat && (k <=? 90)%nat.

Fixpoint well_formed (s : string) : bool :=
  match s with
  | EmptyString => true
  | String c s' => is_letter c && well_formed s'
  end.

(** Base-26 value of a letter string, A = 0 .. Z = 25, most significant
    letter first. *)
Fixpoint base26_acc (s : string) (acc : Z) : Z :=
  match s with
  | EmptyString => acc
  | String c s' => base26_acc s' (26 * acc + (Z.of_nat (nat_of_ascii c) - 65))
  end.

Definition base26_value (s : string) : Z := base26_acc s 0.

(** The order of the codec's strings: a shorter string comes first, strings
    of the same length compare alphabetically. *)
Fixpoint alpha_lt (s t : string) : bool :=
  match s, t with
  | EmptyString, String _ _ => true
  | String c s', String d t' =>
      (nat_of_ascii c <? nat_of_ascii d)%nat ||
      ((nat_of_ascii c =? nat_of_ascii d)%nat && alpha_lt s' t')
  | _, EmptyString => false
  end.

Definition shortlex_lt (s t : string) : bool :=
  (String.length s <? String.length t)%nat ||
  ((String.length s =? String.length t)%nat && alpha_lt s t).

(** An encoding function that is length-monotone and strictly increasing
    on the non-negative integers, as the specification describes it. *)
Definition encode_monotone (enc : Z -> option string) : Prop :=
  forall m n, 0 <= m < n ->
    exists sm sn, enc m = Some sm /\ enc n = Some sn /\
      (String.length sm <= String.length sn)%nat /\ shortlex_lt sm sn = true.

(** Number of letter strings shorter than [L] letters, the empty one
    included, and the position of a letter string in the order above. *)
Fixpoint shorter_count (L : nat) : Z :=
  match L with
  | O => 0
  | S L' => shorter_count L' + 26 ^ Z.of_nat L'
  end.

Definition rank (s : string) : Z :=
  shorter_count (String.length s) + base26_value s.

End AlphaIndex.

(* ------------------------------------------------------------------ *)
(** ** nimgen *)

Module NimGen.
Import NimWin.

(** The [random] module is a global generator state [St].  [random.seed(s)]
    replaces it by [seed_state s]; every draw goes through
    [random._randbelow(n)], which returns a number and the next state:
    [randrange(n)], [randint(a, b) = a + _randbelow(b - a + 1)] and
    [choice(seq) = seq[_randbelow(len(seq))]]. *)
Section Generator.
Variable St : Type.
Variable seed_state : Z -> St.
Variable randbelow : Z -> St -> Z * St.

(** State and error monad: [None] is a raised exception. *)
Definition M (A : Type) : Type := St -> option (A * St).

Definition ret {A} (x : A) : M A := fun s => Some (x, s).

Definition bind {A B} (c : M A) (k : A -> M B) : M B :=
  fun s => match c s with Some (x, s') => k x s' | None => None end.

Definition raise {A} : M A := fun _ => None.

Local Notation "x <- c ;; k" := (bind c (fun x => k))
  (at level 65, c at next level, right associativity).

Definition draw_below (n : Z) : M Z := fun s => Some (randbelow n s).

(** [random.seed(seed)] *)
Definition reseed (seed : Z) : M unit := fun _ => Some (tt, seed_state seed).

(** [random.randrange(stop)] *)
Definition randrange (stop : Z) : M Z :=
  if 0 <? stop then draw_below stop else raise.

(** [random.randint(a, b)] *)
Definition randint (a b : Z) : M Z :=
  if 0 <? b + 1 - a then r <- draw_below (b + 1 - a) ;; ret (a + r) else raise.

(** [seq[i]] with Python's negative indices. *)
Definition py_index {A} (l : list A) (i : Z) : option A :=
  if i <? 0 then l !! Z.to_nat (Z.of_nat (length l) + i) else l !! Z.to_nat i.

(** [random.choice(seq)] *)
Definition choice {A} (l : list A) : M A :=
  match l with
  | [] => raise
  | _ => i <- draw_below (Z.of_nat (length l)) ;;
         match py_index l i with Some x => ret x | None => raise end
  end.

Definition maxsize : Z := 2 ^ 63 - 1.
Definition minpiles : Z := 3.
Definition maxpiles : Z := 7.
Definition mintokens : Z := 2.
Definition maxtokens : Z := 12.

(** [for i in range(len(piles)): piles[i] = random.randint(mintokens, maxtokens)] *)
Fixpoint fill_piles (idx : list nat) (piles : list Z) : M (list Z) :=
  match idx with
  | [] => ret piles
  | i :: idx' =>
      v <- randint mintokens maxtokens ;;
      fill_piles idx' (<[i := v]> piles)
  end.

(** [nimgen(seed, fairstart)]; the seed argument [None] is Python's [None]. *)
Definition nimgen (seed : option Z) (fairstart : bool) : M (list Z * Z) :=
  seed <- (match seed with None => randrange maxsize | Some s => ret s end) ;;
  _ <- reseed seed ;;
  k <- randint minpiles (maxpiles - 1) ;;
  let piles := repeat 0 (Z.to_nat k) in
  piles <- fill_piles (seq 0 (length piles)) piles ;;
  match nimwin piles false with
  | None => raise
  | Some (winnable, stack) =>
      if negb (Bool.eqb fairstart (negb (winnable =? 0))) then
        let sel := match stack with [] => seq 0 (length piles) | _ => stack end in
        selector <- choice sel ;;
        match piles !! selector with
        | None => raise
        | Some p =>
            let newpile := Z.lxor (p - winnable) p in
            b <- (if negb (newpile =? 0) then ret newpile
                  else randint mintokens maxtokens) ;;
            ret (piles ++ [b], seed)
        end
      else ret (piles, seed)
  end.

(** [[i for i, p in enumerate(piles) if p > 0]], the indices counted from [i]. *)
Fixpoint nonempty_from (i : nat) (piles : list Z) : list nat :=
  match piles with
  | [] => []
  | p :: ps => if 0 <? p then i :: nonempty_from (S i) ps else nonempty_from (S i) ps
  end.

(** The move chosen on the CPU's turn of [nimplay]:
    [remv, pile = nimwin(piles, misere)]; an empty candidate tuple is
    replaced by the indices of the non-empty piles; [pile = random.choice(pile)];
    a zero [remv] is replaced by [random.randint(1, int(piles[pile]/2) + 1)].
    (The move is then printed with [alpha_index(pile)]: output only.) *)
Definition cpu_move (piles : list Z) (misere : bool) : M (nat * Z) :=
  match nimwin piles misere with
  | None => raise
  | Some (remv, opts) =>
      let sel := match opts with [] => nonempty_from 0 piles | _ => opts end in
      pile <- choice sel ;;
      if remv =? 0 then
        match piles !! pile with
        | None => raise
        | Some p =>
            match AlphaIndex.int_true_div p 2 with
            | None => raise
            | Some h => remv <- randint 1 (h + 1) ;; ret (pile, remv)
            end
        end
      else ret (pile, remv)
  end.

(** The CPU's turn of the game loop: the move above, then
    [piles[pile] -= remv]. *)
Definition cpu_turn (piles : list Z) (misere : bool) : M (list Z) :=
  mv <- cpu_move piles misere ;;
  let '(pile, remv) := mv in
  match piles !! pile with
  | None => raise
  | Some p => ret (<[pile := p - remv]> piles)
  end.

End Generator.

Arguments ret {St A}.
Arguments bind {St A B}.
Arguments raise {St A}.
Arguments draw_below {St}.
Arguments reseed {St}.
Arguments randrange {St}.
Arguments randint {St}.
Arguments choice {St} randbelow {A}.
Arguments fill_piles {St}.
Arguments nimgen {St}.
Arguments cpu_move {St}.
Arguments cpu_turn {St}.

(** A generator for concrete runs: the state is the list of the raw
    numbers still to be drawn, reduced modulo the bound. *)
Definition script_state (seed : Z) : list Z :=
  [seed; seed / 11; seed / 121; seed / 1331; seed / 14641; seed / 161051;
   seed / 1771561; seed / 19487171; seed / 214358881].

Definition script_below (n : Z) (s : list Z) : Z * list Z :=
  match s with
  | [] => (0, [])
  | r :: s' => (r mod n, s')
  end.

End NimGen.

(* ================================================================== *)
(** * Proofs *)

Module NimWinFacts.
Import NimWin.

(** ** Bitwise arithmetic *)

Ltac bitwise :=
  apply Z.bits_inj'; intros ?k ?Hk;
  repeat first
    [ rewrite Z.lxor_spec | rewrite Z.land_spec | rewrite Z.lor_spec
    | rewrite Z.lnot_spec by exact Hk | rewrite Z.bits_0 ];
  repeat match goal with |- context [Z.testbit ?a ?n] =>
    destruct (Z.testbit a n) end;
  reflexivity.

Lemma nimply_split x p : x = Z.land x p + nimply x p.
Proof.
  unfold nimply. rewrite Z.add_nocarry_lxor by bitwise. bitwise.
Qed.

Lemma xor_split x p : Z.lxor x p = nimply x p + nimply p x.
Proof.
  unfold nimply. rewrite Z.add_nocarry_lxor by bitwise. bitwise.
Qed.

Lemma land_comm_nimply x p : Z.land x p = Z.land p x.
Proof. apply Z.land_comm. Qed.

(** Removing [x - 2 * (x & ~p)] from [p] leaves [x ^ p]. *)
Lemma sub_nimply_xor x p : p - (x - 2 * nimply x p) = Z.lxor x p.
Proof.
  pose proof (nimply_split x p). pose proof (nimply_split p x).
  pose proof (xor_split x p). rewrite (Z.land_comm p x) in *. lia.
Qed.

Lemma nimply_le x p : 0 <= x -> 0 <= nimply x p <= x.
Proof.
  intros Hx. pose proof (nimply_split x p).
  assert (0 <= Z.land x p) by (apply Z.land_nonneg; auto).
  assert (0 <= nimply x p) by (apply Z.land_nonneg; auto). lia.
Qed.

Lemma pow2_le_of_testbit n k :
  0 <= n -> 0 <= k -> Z.testbit n k = true -> 2 ^ k <= n.
Proof.
  intros Hn Hk Hb. destruct (Z.le_gt_cases (2 ^ k) n) as [|Hlt]; [assumption|].
  exfalso. destruct (Z.eq_dec n 0) as [->|Hn0].
  - rewrite Z.bits_0 in Hb. discriminate.
  - rewrite Z.bits_above_log2 in Hb; [discriminate|lia|].
    apply Z.log2_lt_pow2; lia.
Qed.

(** ** XOR of a pile list *)

Definition xor_all (l : list Z) : Z := fold_left Z.lxor l 0.

Lemma fold_lxor_acc l a : fold_left Z.lxor l a = Z.lxor a (xor_all l).
Proof.
  unfold xor_all. revert a. induction l as [|q l IH]; intros a; simpl.
  - rewrite Z.lxor_0_r. reflexivity.
  - rewrite IH, (IH (Z.lxor 0 q)), Z.lxor_0_l, Z.lxor_assoc. reflexivity.
Qed.

Lemma xor_all_cons q l : xor_all (q :: l) = Z.lxor q (xor_all l).
Proof. unfold xor_all at 1. simpl. rewrite fold_lxor_acc, Z.lxor_0_l. reflexivity. Qed.

Lemma reduce_xor_all l : l <> [] -> reduce_xor l = Some (xor_all l).
Proof.
  destruct l as [|q l]; [congruence|]. intros _. simpl.
  rewrite fold_lxor_acc, xor_all_cons. reflexivity.
Qed.

Lemma xor_all_app l r : xor_all (l ++ r) = Z.lxor (xor_all l) (xor_all r).
Proof. unfold xor_all at 1. rewrite fold_left_app, fold_lxor_acc. reflexivity. Qed.

Lemma xor_all_nonneg l : Forall (fun p => 0 <= p) l -> 0 <= xor_all l.
Proof.
  induction 1 as [|q l Hq _ IH].
  - unfold xor_all. simpl. lia.
  - rewrite xor_all_cons. apply Z.lxor_nonneg. split; lia.
Qed.

Lemma xor_all_insert (l : list Z) i p v :
  l !! i = Some p -> xor_all (<[i := v]> l) = Z.lxor (Z.lxor (xor_all l) p) v.
Proof.
  revert i. induction l as [|q l IH]; intros [|i] Hi; simpl in Hi; try discriminate.
  - injection Hi as ->. simpl. rewrite !xor_all_cons.
    rewrite (Z.lxor_comm p (xor_all l)), (Z.lxor_assoc (xor_all l) p p),
      Z.lxor_nilpotent, Z.lxor_0_r, Z.lxor_comm. reflexivity.
  - simpl. rewrite !xor_all_cons, (IH i Hi), !Z.lxor_assoc. reflexivity.
Qed.

Lemma xor_all_bit l k :
  Z.testbit (xor_all l) k = true -> exists p, In p l /\ Z.testbit p k = true.
Proof.
  induction l as [|q l IH]; intros H.
  - unfold xor_all in H. simpl in H. rewrite Z.bits_0 in H. discriminate.
  - rewrite xor_all_cons, Z.lxor_spec in H.
    destruct (Z.testbit q k) eqn:Eq.
    + exists q. split; [left|]; auto.
    + destruct (IH H) as (p & Hp & Hb). exists p. split; [right|]; auto.
Qed.

(** ** The candidate loop *)

Section Scan.
Variable sub : Z.

Lemma scan_bound ps i a o :
  fst (scan sub i ps a o) <= a /\
  Forall (fun p => fst (scan sub i ps a o) <= nimply sub p) ps.
Proof.
  revert i a o. induction ps as [|p ps IH]; intros i a o; simpl.
  - split; [lia|constructor].
  - destruct (Z.ltb_spec (nimply sub p) a) as [Hlt|Hge];
      match goal with |- context [scan sub (S i) ps ?a1 ?o2] =>
        destruct (IH (S i) a1 o2) as [H1 H2] end;
      (split; [lia|constructor; [lia|exact H2]]).
Qed.

Lemma scan_opts pre ps a o :
  (forall j, In j o -> exists p, (pre ++ ps) !! j = Some p /\ nimply sub p = a) ->
  forall j, In j (snd (scan sub (length pre) ps a o)) ->
  exists p, (pre ++ ps) !! j = Some p /\
            nimply sub p = fst (scan sub (length pre) ps a o).
Proof.
  revert pre a o. induction ps as [|p ps IH]; intros pre a o Ho; simpl.
  - exact Ho.
  - assert (Hmid : (pre ++ p :: ps) !! length pre = Some p)
      by (apply list_lookup_middle; reflexivity).
    replace (pre ++ p :: ps) with ((pre ++ [p]) ++ ps) in *
      by (rewrite <- app_assoc; reflexivity).
    replace (S (length pre)) with (length (pre ++ [p]))
      by (rewrite length_app; simpl; lia).
    destruct (Z.ltb_spec (nimply sub p) a) as [Hlt|Hge].
    + rewrite Z.eqb_refl. apply IH.
      intros j [<-|[]]. exists p. auto.
    + destruct (Z.eqb_spec (nimply sub p) a) as [Heq|Hne]; apply IH.
      * intros j Hj. apply in_app_iff in Hj as [Hj|[<-|[]]]; auto.
        exists p. auto.
      * exact Ho.
Qed.

Lemma scan_nonempty ps i a o : o <> [] -> snd (scan sub i ps a o) <> [].
Proof.
  revert i a o. induction ps as [|p ps IH]; intros i a o Ho; simpl; [exact Ho|].
  destruct (nimply sub p <? a); simpl.
  - rewrite Z.eqb_refl. apply IH. discriminate.
  - destruct (nimply sub p =? a); apply IH; [|exact Ho].
    destruct o; discriminate.
Qed.

Lemma scan_first p ps i a o :
  nimply sub p <= a -> snd (scan sub i (p :: ps) a o) <> [].
Proof.
  intros Hle. simpl. destruct (Z.ltb_spec (nimply sub p) a) as [Hlt|Hge].
  - rewrite Z.eqb_refl. apply scan_nonempty. discriminate.
  - replace (nimply sub p =? a) with true by (symmetry; apply Z.eqb_eq; lia).
    apply scan_nonempty. destruct o; discriminate.
Qed.

End Scan.

(** ** What the loop returns on a whole position *)

Lemma scan_facts (piles : list Z) x :
  Forall (fun p => 0 <= p) piles -> piles <> [] -> 0 <= x ->
  let '(m, opts) := scan x 0 piles x [] in
  opts <> [] /\ m <= x /\ Forall (fun p => m <= nimply x p) piles /\
  (forall j, In j opts -> exists p, piles !! j = Some p /\ nimply x p = m).
Proof.
  intros Hnn Hne Hx.
  pose proof (scan_bound x piles 0 x []) as [Hle Hall].
  pose proof (scan_opts x [] piles x []) as Hopts. simpl in Hopts.
  destruct (scan x 0 piles x []) as [m opts] eqn:E. simpl in *.
  repeat split; auto.
  - destruct piles as [|p ps]; [congruence|].
    pose proof (scan_first x p ps 0 x []) as H. rewrite E in H. apply H.
    apply nimply_le. exact Hx.
  - apply Hopts. intros j [].
Qed.

Lemma removal_pos (piles : list Z) x m :
  Forall (fun p => 0 <= p) piles -> x = xor_all piles -> x <> 0 ->
  Forall (fun p => m <= nimply x p) piles -> 0 < x - 2 * m.
Proof.
  intros Hnn Hx Hx0 Hm.
  assert (Hpos : 0 < x) by (pose proof (xor_all_nonneg piles Hnn); lia).
  set (k := Z.log2 x).
  assert (Hk : 0 <= k) by apply Z.log2_nonneg.
  assert (Hbit : Z.testbit x k = true) by (apply Z.bit_log2; exact Hpos).
  pose proof (Z.log2_spec x Hpos) as [_ Hup]. fold k in Hup.
  rewrite Z.pow_succ_r in Hup by exact Hk.
  rewrite Hx in Hbit. destruct (xor_all_bit piles k Hbit) as (p & Hin & Hp).
  rewrite <- Hx in Hbit.
  assert (Hp0 : 0 <= p) by (rewrite List.Forall_forall in Hnn; auto).
  assert (Hland : 2 ^ k <= Z.land x p).
  { apply pow2_le_of_testbit; auto.
    - apply Z.land_nonneg. auto.
    - rewrite Z.land_spec, Hbit, Hp. reflexivity. }
  pose proof (nimply_split x p).
  assert (m <= nimply x p) by (rewrite List.Forall_forall in Hm; auto).
  lia.
Qed.

Lemma candidate_bound x p : 0 <= x -> 0 <= p -> x - 2 * nimply x p <= p.
Proof.
  intros Hx Hp. pose proof (sub_nimply_xor x p).
  assert (0 <= Z.lxor x p) by (apply Z.lxor_nonneg; split; lia). lia.
Qed.

Lemma reduce_xor_some (piles : list Z) x :
  reduce_xor piles = Some x -> piles <> [] /\ x = xor_all piles.
Proof.
  intros H. destruct piles as [|q l]; [discriminate|].
  split; [discriminate|].
  rewrite reduce_xor_all in H by discriminate. congruence.
Qed.

Lemma misere_bias_false (piles : list Z) : misere_bias piles false = 0.
Proof. reflexivity. Qed.

(** Normal play: a zero XOR gives [(0, ())]; otherwise the removal is
    positive, the candidates are the piles realising the minimum, and the
    removal fits in each of them. *)
Lemma nimwin_normal (piles : list Z) x :
  Forall (fun p => 0 <= p) piles -> reduce_xor piles = Some x ->
  (x = 0 /\ nimwin piles false = Some (0, [])) \/
  (x <> 0 /\ exists m opts,
     scan x 0 piles x [] = (m, opts) /\
     nimwin piles false = Some (x - 2 * m, opts) /\
     0 < x - 2 * m /\ opts <> [] /\
     forall j, In j opts ->
       exists p, piles !! j = Some p /\ nimply x p = m /\ x - 2 * m <= p).
Proof.
  intros Hnn Hr. destruct (reduce_xor_some piles x Hr) as [Hne Hx].
  assert (Hx0 : 0 <= x) by (subst; apply xor_all_nonneg; auto).
  unfold nimwin. rewrite misere_bias_false, Hr, Z.add_0_r.
  destruct (Z.eqb_spec x 0) as [->|Hnz]; simpl.
  - left. auto.
  - right. split; [exact Hnz|].
    pose proof (scan_facts piles x Hnn Hne Hx0) as Hf.
    destruct (scan x 0 piles x []) as [m opts] eqn:E.
    destruct Hf as (Hopts & Hmx & Hall & Hc).
    exists m, opts. rewrite Z.add_0_r. repeat split; auto.
    + eapply removal_pos; eauto.
    + intros j Hj. destruct (Hc j Hj) as (p & Hp & Hm). exists p.
      repeat split; auto. rewrite <- Hm. apply candidate_bound; auto.
      eapply List.Forall_forall; [exact Hnn|]. apply list_elem_of_In. eapply list_elem_of_lookup_2. exact Hp.
Qed.

End NimWinFacts.

Module NimWinClaims.
Import NimWin NimWinFacts.

(** C1: under normal rules, when the XOR of a non-empty list of
    non-negative piles is nonzero, [nimwin] returns a non-empty candidate
    list, and removing the returned amount from any candidate pile makes
    the XOR of the piles exactly 0. *)
Theorem nimwin_sound (piles : list Z) (x : Z) :
  Forall (fun p => 0 <= p) piles -> reduce_xor piles = Some x -> x <> 0 ->
  exists sub opts,
    nimwin piles false = Some (sub, opts) /\ opts <> [] /\
    forall i, In i opts ->
      exists p, piles !! i = Some p /\ reduce_xor (<[i := p - sub]> piles) = Some 0.
Proof.
  intros Hnn Hr Hx0.
  destruct (reduce_xor_some piles x Hr) as [Hne Hx].
  destruct (nimwin_normal piles x Hnn Hr) as [[? _]|(_ & m & opts & _ & Hw & _ & Hopts & Hc)];
    [contradiction|].
  exists (x - 2 * m), opts. repeat split; auto.
  intros i Hi. destruct (Hc i Hi) as (p & Hp & Hm & _). exists p. split; [exact Hp|].
  rewrite reduce_xor_all.
  - rewrite (xor_all_insert piles i p _ Hp), <- Hx, <- Hm, sub_nimply_xor,
      Z.lxor_nilpotent. reflexivity.
  - intros Hnil. apply (f_equal length) in Hnil. rewrite length_insert in Hnil.
    destruct piles; [congruence|discriminate].
Qed.

Lemma nimwin_sound_witness :
  Forall (fun p => 0 <= p) [4; 2; 1] /\ reduce_xor [4; 2; 1] = Some 7 /\
  exists sub opts,
    nimwin [4; 2; 1] false = Some (sub, opts) /\ opts <> [] /\
    forall i, In i opts ->
      exists p, [4; 2; 1] !! i = Some p /\ reduce_xor (<[i := p - sub]> [4; 2; 1]) = Some 0.
Proof.
  split; [repeat constructor; lia|]. split; [reflexivity|].
  apply (nimwin_sound [4; 2; 1] 7); [repeat constructor; lia|reflexivity|lia].
Defined.

(** C3: the seven documented results of [nimwin]. *)
Theorem nimwin_examples :
  nimwin [4; 2; 1] false = Some (1, [0%nat]) /\
  nimwin [6; 6; 2; 1] false = Some (1, [0%nat; 1%nat; 2%nat]) /\
  nimwin [2; 2] false = Some (0, []) /\
  nimwin [1; 2; 1] false = Some (2, [1%nat]) /\
  nimwin [1; 2; 1] true = Some (1, [1%nat]) /\
  nimwin [1; 1] false = Some (0, []) /\
  nimwin [1; 1] true = Some (1, [0%nat; 1%nat]).
Proof. repeat split; reflexivity. Qed.

(** C5 (as stated, refuted): in the controllable branch the quantity
    [xorValue - 2 * minResidual] is not always positive: on [(1, 1)] in
    misère mode the XOR is 0, the bias is +1, and the quantity is 0. *)
Lemma removal_not_always_positive :
  ~ (forall (piles : list Z) misere x,
       Forall (fun p => 0 <= p) piles -> reduce_xor piles = Some x ->
       x + misere_bias piles misere <> 0 ->
       0 < x - 2 * fst (scan x 0 piles x [])).
Proof.
  intros H. specialize (H [1; 1] true 0).
  assert (Hc : 0 < 0 - 2 * fst (scan 0 0 [1; 1] 0 [])).
  { apply H; [repeat constructor; lia|reflexivity|discriminate]. }
  vm_compute in Hc. discriminate.
Qed.

(** C5 (amended): in the controllable branch, [xorValue - 2 * minResidual]
    is at least 0 and at most every candidate pile; it is positive when
    the XOR is nonzero and 0 when the XOR is 0 (the misère bias +1 is
    then the whole move).  When the bias is 0 (normal play, or misère
    play outside the endgame) the returned removal amount is a legal
    move on every candidate pile. *)
Theorem nimwin_removal_bounds (piles : list Z) (misere : bool) (x : Z) :
  Forall (fun p => 0 <= p) piles -> reduce_xor piles = Some x ->
  x + misere_bias piles misere <> 0 ->
  let '(m, opts) := scan x 0 piles x [] in
  nimwin piles misere = Some (x - 2 * m + misere_bias piles misere, opts) /\
  opts <> [] /\ 0 <= x - 2 * m /\
  (x <> 0 -> 0 < x - 2 * m) /\ (x = 0 -> x - 2 * m = 0) /\
  (forall j, In j opts -> exists p, piles !! j = Some p /\ x - 2 * m <= p) /\
  (misere_bias piles misere = 0 ->
   forall j, In j opts -> exists p, piles !! j = Some p /\
     0 < x - 2 * m + misere_bias piles misere <= p).
Proof.
  intros Hnn Hr Hc.
  destruct (reduce_xor_some piles x Hr) as [Hne Hx].
  assert (Hx0 : 0 <= x) by (subst; apply xor_all_nonneg; auto).
  pose proof (scan_facts piles x Hnn Hne Hx0) as Hf.
  destruct (scan x 0 piles x []) as [m opts] eqn:E.
  destruct Hf as (Hopts & Hmx & Hall & Hcand).
  assert (Hbound : forall j, In j opts -> exists p, piles !! j = Some p /\ x - 2 * m <= p).
  { intros j Hj. destruct (Hcand j Hj) as (p & Hp & Hm). exists p. split; [exact Hp|].
    rewrite <- Hm. apply candidate_bound; [exact Hx0|].
    eapply List.Forall_forall; [exact Hnn|].
    apply list_elem_of_In. eapply list_elem_of_lookup_2. exact Hp. }
  assert (Hpos : x <> 0 -> 0 < x - 2 * m) by (intros; eapply removal_pos; eauto).
  assert (Hzero : x = 0 -> x - 2 * m = 0).
  { intros ->. destruct opts as [|j ?]; [congruence|].
    destruct (Hcand j (or_introl eq_refl)) as (p & _ & Hm).
    unfold nimply in Hm. rewrite Z.land_0_l in Hm. lia. }
  repeat split; auto.
  - unfold nimwin. rewrite Hr, E.
    destruct (Z.eqb_spec (x + misere_bias piles misere) 0); [contradiction|].
    reflexivity.
  - destruct (Z.eq_dec x 0); [rewrite Hzero by auto; lia|specialize (Hpos n); lia].
  - intros Hb j Hj. destruct (Hbound j Hj) as (p & Hp & Hle). exists p.
    rewrite Hb in *. split; [exact Hp|]. specialize (Hpos ltac:(lia)). lia.
Qed.

Lemma nimwin_removal_bounds_witness :
  Forall (fun p => 0 <= p) [1; 1] /\ reduce_xor [1; 1] = Some 0 /\
  0 + misere_bias [1; 1] true <> 0 /\
  (let '(m, opts) := scan 0 0 [1; 1] 0 [] in
   nimwin [1; 1] true = Some (0 - 2 * m + misere_bias [1; 1] true, opts) /\
   opts <> [] /\ 0 <= 0 - 2 * m /\
   (0 <> 0 -> 0 < 0 - 2 * m) /\ (0 = 0 -> 0 - 2 * m = 0) /\
   (forall j, In j opts -> exists p, [1; 1] !! j = Some p /\ 0 - 2 * m <= p) /\
   (misere_bias [1; 1] true = 0 ->
    forall j, In j opts -> exists p, [1; 1] !! j = Some p /\
      0 < 0 - 2 * m + misere_bias [1; 1] true <= p)).
Proof.
  split; [repeat constructor; lia|]. split; [reflexivity|]. split; [vm_compute; discriminate|].
  apply (nimwin_removal_bounds [1; 1] true 0);
    [repeat constructor; lia|reflexivity|vm_compute; discriminate].
Defined.

(** In misère mode at an endgame with an even number of non-empty piles,
    a spent pile (value 0) is among the candidates although the returned
    removal amount is 1. *)
Lemma nimwin_spent_pile_candidate :
  nimwin [0; 1; 1] true = Some (1, [0%nat; 1%nat; 2%nat]).
Proof. reflexivity. Qed.

(** C6 (as stated, refuted): on the empty tuple, [reduce] without an
    initial value raises [TypeError], in both modes. *)
Lemma nimwin_empty_raises :
  nimwin [] false = None /\ nimwin [] true = None /\
  ~ (forall (piles : list Z) (misere : bool),
       Forall (fun p => 0 <= p) piles -> nimwin piles misere <> None).
Proof.
  split; [reflexivity|]. split; [reflexivity|].
  intros H. apply (H [] true (List.Forall_nil _)). reflexivity.
Qed.

(** C6 (amended): in either mode, [nimwin] raises on the empty tuple
    ([reduce] with no initial value) and returns a result without raising
    on every non-empty tuple. *)
Theorem nimwin_total (piles : list Z) (misere : bool) :
  (piles = [] -> nimwin piles misere = None) /\
  (piles <> [] -> exists r, nimwin piles misere = Some r).
Proof.
  split.
  - intros ->. destruct misere; reflexivity.
  - intros Hne. unfold nimwin.
    destruct piles as [|p0 rest]; [congruence|].
    destruct (reduce_xor (p0 :: rest)) as [x|] eqn:E; [|discriminate].
    destruct (negb (x + misere_bias (p0 :: rest) misere =? 0));
      [destruct (scan x 0 (p0 :: rest) x [])|]; eexists; reflexivity.
Qed.

Lemma nimwin_total_witness :
  nimwin [] true = None /\ nimwin [] false = None /\
  exists r, nimwin [2; 2] true = Some r.
Proof.
  split; [apply (nimwin_total [] true); reflexivity|].
  split; [apply (nimwin_total [] false); reflexivity|].
  apply (nimwin_total [2; 2] true). discriminate.
Defined.

End NimWinClaims.

Module AlphaIndexClaims.
Import AlphaIndex.

Open Scope string_scope.

(** ** Facts about the decode branch *)

(** [floorval] is exact up to length 12: the float quotient of
    [26**length - 26] by 25 is representable there. *)
Lemma floorval_exact (L : Z) :
  1 <= L <= 12 -> floorval L = Some ((26 ^ L - 26) / 25).
Proof.
  intros HL.
  assert (L = 1 \/ L = 2 \/ L = 3 \/ L = 4 \/ L = 5 \/ L = 6 \/ L = 7 \/
          L = 8 \/ L = 9 \/ L = 10 \/ L = 11 \/ L = 12) as HL' by lia.
  repeat destruct HL' as [->|HL']; try (subst L); vm_compute; reflexivity.
Qed.

(** What the decode branch does with one letter, checked over all 256
    characters. *)
Definition letter_digit_ok (c : ascii) : bool :=
  implb (is_letter c)
    (match str_index letters c with
     | Some k =>
         match get k numalpha with
         | Some d =>
             match digit_value d with
             | Some v => Z.eqb v (Z.of_nat (nat_of_ascii c) - 65) && Z.ltb v 26
             | None => false
             end
         | None => false
         end
     | None => false
     end && Ascii.eqb (ascii_upper c) c).

Lemma letter_digit_all :
  forallb letter_digit_ok (map ascii_of_nat (seq 0 256)) = true.
Proof. vm_compute. reflexivity. Qed.

Lemma letter_digit (c : ascii) :
  is_letter c = true ->
  ascii_upper c = c /\
  exists k d, str_index letters c = Some k /\ get k numalpha = Some d /\
    digit_value d = Some (Z.of_nat (nat_of_ascii c) - 65) /\
    Z.of_nat (nat_of_ascii c) - 65 < 26.
Proof.
  intros Hc.
  assert (Hok : letter_digit_ok c = true).
  { pose proof letter_digit_all as Hall. rewrite forallb_forall in Hall.
    apply Hall. rewrite <- (ascii_nat_embedding c).
    apply in_map, in_seq. pose proof (nat_ascii_bounded c). lia. }
  unfold letter_digit_ok in Hok. rewrite Hc in Hok. cbn [implb] in Hok.
  destruct (str_index letters c) as [k|] eqn:Ek; [|discriminate Hok].
  destruct (get k numalpha) as [d|] eqn:Ed; [|discriminate Hok].
  destruct (digit_value d) as [v|] eqn:Ev; [|discriminate Hok].
  apply andb_prop in Hok as [Hok Hup]. apply andb_prop in Hok as [Hv Hlt].
  apply Z.eqb_eq in Hv. apply Z.ltb_lt in Hlt. apply Ascii.eqb_eq in Hup.
  split; [exact Hup|]. exists k, d. subst v. auto 6.
Qed.

Lemma str_upper_letters (s : string) : well_formed s = true -> str_upper s = s.
Proof.
  induction s as [|c s IH]; simpl; [reflexivity|].
  intros H. apply andb_prop in H as [Hc Hs].
  destruct (letter_digit c Hc) as [-> _]. rewrite IH by exact Hs. reflexivity.
Qed.

Lemma translate_letters (s : string) (acc : Z) :
  well_formed s = true ->
  exists t, translate_digits s = Some t /\ String.length t = String.length s /\
    int_base_acc t 26 acc = Some (base26_acc s acc).
Proof.
  revert acc. induction s as [|c s IH]; intros acc;
    cbn [well_formed translate_digits base26_acc].
  - intros _. exists "". auto.
  - intros H. apply andb_prop in H as [Hc Hs].
    destruct (letter_digit c Hc) as (_ & k & d & Hk & Hd & Hv & Hlt).
    destruct (IH (acc * 26 + (Z.of_nat (nat_of_ascii c) - 65)) Hs)
      as (t & Ht & Hlen & Hval).
    rewrite Hk, Hd, Ht. exists (String d t).
    cbn [String.length int_base_acc]. rewrite Hv.
    repeat split; [congruence|].
    destruct (Z.ltb_spec (Z.of_nat (nat_of_ascii c) - 65) 26); [|lia].
    rewrite Hval, Z.mul_comm. reflexivity.
Qed.

(** The decode branch, for a letter string of length 1 to 12. *)
Lemma decode_letters (s : string) :
  well_formed s = true -> (1 <= String.length s <= 12)%nat ->
  decode s = Some (base26_value s + (26 ^ Z.of_nat (String.length s) - 26) / 25).
Proof.
  intros Hw Hlen. unfold decode.
  rewrite floorval_exact by lia.
  rewrite str_upper_letters by exact Hw.
  destruct (translate_letters s 0 Hw) as (t & Ht & Htlen & Hval).
  rewrite Ht. destruct t as [|d t']; [simpl in Htlen; lia|].
  unfold int_base. rewrite Hval. unfold base26_value. f_equal. lia.
Qed.

(** ** Facts about the encode branch *)

(** The float quotient by 25 overflows once the dividend reaches
    [2^1030]: the rounded value is at least [2^1024]. *)
Lemma round_pos_quotient_overflow (a : Z) :
  2 ^ 1030 <= a -> round_pos_quotient a 25 = None.
Proof.
  intros Ha.
  assert (HL : 1030 <= Z.log2 a).
  { rewrite <- (Z.log2_pow2 1030) by lia. apply Z.log2_le_mono. exact Ha. }
  destruct (Z.log2_spec a) as [HL1 _]; [lia|].
  assert (Hbig : forall e, 0 <= e <= Z.log2 a - 56 -> forall m,
            a / (25 * 2 ^ e) <= m -> ((2 ^ 1024 <=? m * 2 ^ e) = true)%Z).
  { intros e He m Hm. apply Z.leb_le.
    assert (HP : 2 ^ e * 2 ^ 56 <= a).
    { rewrite <- Z.pow_add_r by lia.
      assert (2 ^ (e + 56) <= 2 ^ Z.log2 a) by (apply Z.pow_le_mono_r; lia). lia. }
    assert (HP0 : 0 < 2 ^ e) by (apply Z.pow_pos_nonneg; lia).
    pose proof (Z.div_mod a (25 * 2 ^ e) ltac:(lia)) as Hdm.
    pose proof (Z.mod_pos_bound a (25 * 2 ^ e) ltac:(lia)) as Hmod.
    set (q := a / (25 * 2 ^ e)) in *. set (r := a mod (25 * 2 ^ e)) in *.
    set (P := 2 ^ e) in *.
    assert (HqP : q * P <= m * P) by nia.
    set (X := q * P) in *.
    assert (Hx : a = 25 * X + r) by (subst X; lia).
    clearbody X r P. lia. }
  unfold round_pos_quotient.
  replace (Z.log2 25) with 4 by reflexivity.
  cbv zeta.
  assert (H0 : ((0 <=? Z.log2 a - 4 - 52) = true)%Z) by (apply Z.leb_le; lia).
  rewrite H0.
  destruct (a / (25 * 2 ^ (Z.log2 a - 4 - 52)) <? 2 ^ 52)%Z.
  - assert (H1 : ((0 <=? Z.log2 a - 4 - 52 - 1) = true)%Z) by (apply Z.leb_le; lia).
    rewrite H1.
    set (e := Z.log2 a - 4 - 52 - 1).
    set (d := 25 * 2 ^ e).
    destruct (d <? 2 * (a mod d))%Z; [|destruct (2 * (a mod d) <? d)%Z;
      [|destruct (Z.even (a / d))]];
      rewrite (Hbig e) by (subst e d; lia); reflexivity.
  - rewrite H0.
    set (e := Z.log2 a - 4 - 52).
    set (d := 25 * 2 ^ e).
    destruct (d <? 2 * (a mod d))%Z; [|destruct (2 * (a mod d) <? d)%Z;
      [|destruct (Z.even (a / d))]];
      rewrite (Hbig e) by (subst e d; lia); reflexivity.
Qed.

(** [floorval] raises [OverflowError] for every length from 220 on. *)
Lemma floorval_overflow (L : Z) : 220 <= L -> floorval L = None.
Proof.
  intros HL. unfold floorval, int_true_div.
  assert (Hp : 26 ^ 220 <= 26 ^ L) by (apply Z.pow_le_mono_r; lia).
  assert (Hc : 2 ^ 1030 + 26 <= 26 ^ 220) by (apply Z.leb_le; vm_compute; reflexivity).
  replace (25 =? 0)%Z with false by reflexivity.
  replace (26 ^ L - 26 =? 0)%Z with false by (symmetry; apply Z.eqb_neq; lia).
  rewrite Z.abs_eq by lia.
  rewrite round_pos_quotient_overflow by lia. reflexivity.
Qed.

Lemma get_letters (k : nat) (c : ascii) :
  get k letters = Some c -> is_letter c = true.
Proof.
  intros Hk.
  do 26 (destruct k as [|k]; [injection Hk as <-; reflexivity|]).
  discriminate Hk.
Qed.

Lemma encode_digits_shape (fuel : nat) (n : Z) (acc s : string) :
  encode_digits fuel n acc = Some s -> well_formed acc = true ->
  well_formed s = true /\ String.length s = (fuel + String.length acc)%nat.
Proof.
  revert n acc. induction fuel as [|fuel IH]; intros n acc Hs Hacc;
    cbn [encode_digits] in Hs.
  - injection Hs as <-. split; [exact Hacc|reflexivity].
  - destruct (get (Z.to_nat (n mod 26)) letters) as [c|] eqn:Hc; [|discriminate Hs].
    destruct (IH _ _ Hs) as [Hw Hlen].
    + cbn [well_formed]. rewrite (get_letters _ _ Hc). exact Hacc.
    + split; [exact Hw|]. rewrite Hlen. cbn [String.length]. lia.
Qed.

(** What [encode] returns, whatever its length computation yields, is a
    letter string of fewer than 220 letters. *)
Lemma encode_shape (alphalen : Z -> Z) (n : Z) (s : string) :
  encode alphalen n = Some s ->
  well_formed s = true /\ (String.length s < 220)%nat.
Proof.
  unfold encode. intros Hs.
  destruct (floorval (alphalen n)) as [fl|] eqn:Hfl; [|discriminate Hs].
  assert (HK : alphalen n < 220).
  { destruct (Z.lt_ge_cases (alphalen n) 220) as [H|H]; [exact H|].
    rewrite floorval_overflow in Hfl by exact H. discriminate Hfl. }
  destruct (encode_digits_shape _ _ _ _ Hs eq_refl) as [Hw Hlen].
  split; [exact Hw|]. cbn [String.length] in Hlen. lia.
Qed.

Lemma letter_range (c : ascii) :
  is_letter c = true -> 0 <= Z.of_nat (nat_of_ascii c) - 65 < 26.
Proof.
  unfold is_letter. intros H. apply andb_prop in H as [H1 H2].
  apply Nat.leb_le in H1. apply Nat.leb_le in H2. lia.
Qed.

Lemma base26_acc_bounds (s : string) (acc : Z) :
  well_formed s = true -> 0 <= acc ->
  acc * 26 ^ Z.of_nat (String.length s) <= base26_acc s acc <
  (acc + 1) * 26 ^ Z.of_nat (String.length s).
Proof.
  revert acc. induction s as [|c s IH]; intros acc Hw Hacc;
    cbn [base26_acc String.length well_formed] in *.
  - lia.
  - apply andb_prop in Hw as [Hc Hs].
    pose proof (letter_range c Hc) as Hd.
    set (d := Z.of_nat (nat_of_ascii c) - 65) in *.
    specialize (IH (26 * acc + d) Hs ltac:(lia)).
    rewrite Nat2Z.inj_succ, Z.pow_succ_r by lia.
    assert (0 < 26 ^ Z.of_nat (String.length s)) by (apply Z.pow_pos_nonneg; lia).
    nia.
Qed.

Lemma base26_acc_lt (s t : string) (a b : Z) :
  well_formed s = true -> well_formed t = true ->
  String.length s = String.length t -> alpha_lt s t = true ->
  0 <= a <= b -> base26_acc s a < base26_acc t b.
Proof.
  revert t a b. induction s as [|c s IH]; intros t a b Hs Ht Hlen Hlt Hab;
    destruct t as [|d t]; cbn [alpha_lt String.length well_formed base26_acc] in *;
    try discriminate; try lia.
  apply andb_prop in Hs as [Hc Hs]. apply andb_prop in Ht as [Hd Ht].
  pose proof (letter_range c Hc). pose proof (letter_range d Hd).
  apply orb_prop in Hlt as [Hlt|Hlt].
  - apply Nat.ltb_lt in Hlt.
    pose proof (base26_acc_bounds s (26 * a + (Z.of_nat (nat_of_ascii c) - 65)) Hs ltac:(lia)).
    pose proof (base26_acc_bounds t (26 * b + (Z.of_nat (nat_of_ascii d) - 65)) Ht ltac:(lia)).
    assert (0 < 26 ^ Z.of_nat (String.length s)) by (apply Z.pow_pos_nonneg; lia).
    assert (Hlen' : String.length t = String.length s) by lia. rewrite Hlen' in *.
    nia.
  - apply andb_prop in Hlt as [Heq Hlt]. apply Nat.eqb_eq in Heq.
    apply IH; auto. lia.
Qed.

Lemma shorter_count_step (L : nat) :
  shorter_count (S L) = shorter_count L + 26 ^ Z.of_nat L.
Proof. reflexivity. Qed.

Lemma shorter_count_mono (L L' : nat) :
  (L <= L')%nat -> shorter_count L <= shorter_count L'.
Proof.
  induction 1 as [|L' _ IH]; [lia|].
  rewrite shorter_count_step.
  assert (0 < 26 ^ Z.of_nat L') by (apply Z.pow_pos_nonneg; lia). lia.
Qed.

Lemma rank_bounds (s : string) :
  well_formed s = true ->
  shorter_count (String.length s) <= rank s < shorter_count (S (String.length s)).
Proof.
  intros Hw. unfold rank, base26_value. rewrite shorter_count_step.
  pose proof (base26_acc_bounds s 0 Hw ltac:(lia)). lia.
Qed.

Lemma rank_lt (s t : string) :
  well_formed s = true -> well_formed t = true ->
  shortlex_lt s t = true -> rank s < rank t.
Proof.
  intros Hs Ht Hlt. unfold shortlex_lt in Hlt.
  apply orb_prop in Hlt as [Hlt|Hlt].
  - apply Nat.ltb_lt in Hlt.
    pose proof (rank_bounds s Hs). pose proof (rank_bounds t Ht).
    pose proof (shorter_count_mono (S (String.length s)) (String.length t) Hlt).
    lia.
  - apply andb_prop in Hlt as [Heq Hlt]. apply Nat.eqb_eq in Heq.
    unfold rank, base26_value. rewrite Heq.
    pose proof (base26_acc_lt s t 0 0 Hs Ht Heq Hlt ltac:(lia)). lia.
Qed.

(** A strictly increasing encoding into letter strings of fewer than 220
    letters places the integer [k] at rank [k] or beyond. *)
Lemma monotone_rank (enc : Z -> option string) :
  (forall n s, enc n = Some s -> well_formed s = true /\ (String.length s < 220)%nat) ->
  encode_monotone enc ->
  forall k : nat, exists s, enc (Z.of_nat k) = Some s /\ Z.of_nat k <= rank s.
Proof.
  intros Hshape Hmono k. induction k as [|k (s & Hs & Hk)].
  - destruct (Hmono 0 1 ltac:(lia)) as (s0 & s1 & H0 & _ & _ & _).
    exists s0. split; [exact H0|].
    pose proof (rank_bounds s0 (proj1 (Hshape _ _ H0))).
    assert (0 <= shorter_count (String.length s0))
      by (pose proof (shorter_count_mono 0 (String.length s0)); simpl in *; lia).
    simpl. lia.
  - destruct (Hmono (Z.of_nat k) (Z.of_nat (S k)) ltac:(lia))
      as (sm & sn & Hm & Hn & _ & Hlt).
    rewrite Hs in Hm. injection Hm as <-.
    exists sn. split; [exact Hn|].
    pose proof (rank_lt s sn (proj1 (Hshape _ _ Hs)) (proj1 (Hshape _ _ Hn)) Hlt).
    lia.
Qed.

(** ** Claims *)

(** C4 (defect): [floorval] divides with [/], a float division, so from 13
    letters on the offset of a string length is rounded: [floorval(13)]
    is 6 below the exact count.  The 13-letter string "AAAAAAAAAAAAA" and
    the 12-letter string "ZZZZZZZZZZZU" then decode to the same number,
    so no encoding function, whatever its floating-point length
    computation yields, gives back both strings. *)
Theorem codec_roundtrip_fails :
  decode "AAAAAAAAAAAAA" = Some 99246114928149456 /\
  decode "ZZZZZZZZZZZU" = Some 99246114928149456 /\
  forall alphalen : Z -> Z,
    ~ (forall s, well_formed s = true -> s <> "" ->
         exists n, decode s = Some n /\ encode alphalen n = Some s).
Proof.
  assert (H1 : decode "AAAAAAAAAAAAA" = Some 99246114928149456) by (vm_compute; reflexivity).
  assert (H2 : decode "ZZZZZZZZZZZU" = Some 99246114928149456) by (vm_compute; reflexivity).
  split; [exact H1|]. split; [exact H2|].
  intros alphalen H.
  destruct (H "AAAAAAAAAAAAA" eq_refl ltac:(discriminate)) as (n1 & Hd1 & He1).
  destruct (H "ZZZZZZZZZZZU" eq_refl ltac:(discriminate)) as (n2 & Hd2 & He2).
  rewrite H1 in Hd1. rewrite H2 in Hd2.
  injection Hd1 as <-. injection Hd2 as <-. rewrite He1 in He2. discriminate.
Qed.

(** C7 (as stated, refuted): with the offset [(26^(len-1) - 26)/25] the
    one-letter string "A" would decode to -1; the code decodes it to 0. *)
Lemma decode_offset_counterexample :
  ~ (forall s, well_formed s = true -> s <> "" ->
       decode s = Some (base26_value s + (26 ^ (Z.of_nat (String.length s) - 1) - 26) / 25)).
Proof.
  intros H. specialize (H "A" eq_refl ltac:(discriminate)).
  vm_compute in H. discriminate.
Qed.

(** C7 (amended): a letter string of 1 to 12 letters decodes to its
    base-26 value (A = 0 .. Z = 25, most significant first) plus
    [(26^len - 26)/25], the number of shorter strings. *)
Theorem decode_value (s : string) :
  well_formed s = true -> (1 <= String.length s <= 12)%nat ->
  decode s = Some (base26_value s + (26 ^ Z.of_nat (String.length s) - 26) / 25).
Proof. apply decode_letters. Qed.

Lemma decode_value_witness :
  well_formed "AYL" = true /\ (1 <= String.length "AYL" <= 12)%nat /\
  decode "AYL" = Some (base26_value "AYL" + (26 ^ Z.of_nat (String.length "AYL") - 26) / 25).
Proof.
  split; [reflexivity|]. split; [simpl; lia|].
  apply decode_value; [reflexivity|simpl; lia].
Defined.

(** C8 (defect): [encode] is not strictly increasing.  Where the
    floating-point [log(25*n+26, 26)] rounds [log(26**13, 26)] down to
    12.999999999999998 (as glibc's [log] does), the length of both
    99246114928149461 and 99246114928149462 is 12, and the second wraps
    around: "ZZZZZZZZZZZZ" is followed by "AAAAAAAAAAAA".  Whatever the
    logarithm yields, [floorval] overflows from length 220 on, so [encode]
    returns strings of fewer than 220 letters or raises, and no such
    function is strictly increasing on all non-negative integers. *)
Theorem encode_not_monotone :
  encode (fun _ => 12) 99246114928149461 = Some "ZZZZZZZZZZZZ" /\
  encode (fun _ => 12) 99246114928149462 = Some "AAAAAAAAAAAA" /\
  forall alphalen : Z -> Z, ~ encode_monotone (encode alphalen).
Proof.
  split; [vm_compute; reflexivity|]. split; [vm_compute; reflexivity|].
  intros alphalen Hmono.
  destruct (monotone_rank (encode alphalen) (encode_shape alphalen) Hmono
              (Z.to_nat (shorter_count 220))) as (s & Hs & Hk).
  pose proof (encode_shape alphalen _ _ Hs) as [Hw Hlen].
  pose proof (rank_bounds s Hw).
  pose proof (shorter_count_mono (S (String.length s)) 220 Hlen).
  assert (0 <= shorter_count 220) by (apply (shorter_count_mono 0 220); lia).
  rewrite Z2Nat.id in Hk by lia. lia.
Qed.

End AlphaIndexClaims.

Module NimGenFacts.
Import NimWin NimWinFacts NimGen.

Section Run.
Variable St : Type.
Variable seed_state : Z -> St.
Variable randbelow : Z -> St -> Z * St.

Lemma bind_some {A B} (c : M St A) (k : A -> M St B) s x s' :
  c s = Some (x, s') -> bind c k s = k x s'.
Proof. intros H. unfold bind. rewrite H. reflexivity. Qed.

(** Everything after [random.seed(seed)] depends on [seed] only. *)
Lemma nimgen_some_seed (S : Z) (f : bool) (st1 st2 : St) :
  nimgen seed_state randbelow (Some S) f st1 = nimgen seed_state randbelow (Some S) f st2.
Proof. reflexivity. Qed.

Lemma nimgen_none_seed (f : bool) (st st' : St) :
  nimgen seed_state randbelow None f st =
  nimgen seed_state randbelow (Some (fst (randbelow maxsize st))) f st'.
Proof.
  unfold nimgen at 1. unfold bind at 1. unfold randrange.
  replace (0 <? maxsize) with true by reflexivity.
  unfold draw_below. destruct (randbelow maxsize st) as [s st1]. reflexivity.
Qed.

Ltac run_cases H :=
  repeat (cbn beta iota zeta in H;
          match type of H with
          | context [match ?e with _ => _ end] => destruct e eqn:?; try discriminate H
          end).

(** The seed [nimgen] returns is the one it re-seeded with. *)
Lemma nimgen_some_returns_seed (S : Z) (f : bool) (st : St) piles s st' :
  nimgen seed_state randbelow (Some S) f st = Some ((piles, s), st') -> s = S.
Proof.
  intros H. cbv [nimgen bind ret reseed randint randrange draw_below choice raise] in H.
  run_cases H; injection H; intros; congruence.
Qed.

Hypothesis randbelow_range : forall n s, 0 < n -> 0 <= fst (randbelow n s) < n.

Lemma randint_some (a b : Z) (s : St) :
  a <= b -> exists v s', randint randbelow a b s = Some (v, s') /\ a <= v <= b.
Proof.
  intros Hab. unfold randint.
  destruct (Z.ltb_spec 0 (b + 1 - a)) as [Hw|]; [|lia].
  pose proof (randbelow_range (b + 1 - a) s Hw) as Hr.
  unfold bind, draw_below, ret. destruct (randbelow (b + 1 - a) s) as [r s'].
  simpl in Hr. exists (a + r), s'. split; [reflexivity|lia].
Qed.

Lemma choice_some {A} (l : list A) (s : St) :
  l <> [] -> exists y s', choice randbelow l s = Some (y, s') /\ In y l.
Proof.
  intros Hne. unfold choice.
  destruct l as [|y0 l0] eqn:El; [congruence|]. rewrite <- El.
  assert (Hn : 0 < Z.of_nat (length l)) by (subst; simpl; lia).
  pose proof (randbelow_range _ s Hn) as Hr.
  unfold bind, draw_below. destruct (randbelow (Z.of_nat (length l)) s) as [r s'].
  simpl in Hr. unfold py_index.
  destruct (Z.ltb_spec r 0) as [|_]; [lia|].
  destruct (lookup_lt_is_Some_2 l (Z.to_nat r)) as [y Hy]; [lia|].
  rewrite Hy. exists y, s'. split; [reflexivity|].
  apply list_elem_of_In. eapply list_elem_of_lookup_2. exact Hy.
Qed.

Lemma fill_some (idx : list nat) (piles : list Z) (s : St) :
  (forall j p, piles !! j = Some p -> In j idx \/ 2 <= p <= 12) ->
  exists piles' s', fill_piles randbelow idx piles s = Some (piles', s') /\
    length piles' = length piles /\ Forall (fun p => 2 <= p <= 12) piles'.
Proof.
  revert piles s. induction idx as [|i idx IH]; intros piles s Hinv; simpl.
  - exists piles, s. repeat split; auto.
    apply List.Forall_forall. intros p Hp.
    apply list_elem_of_In, list_elem_of_lookup_1 in Hp as [j Hj].
    destruct (Hinv j p Hj) as [[]|]; auto.
  - destruct (randint_some mintokens maxtokens s) as (v & s1 & Hv & Hvr);
      [unfold mintokens, maxtokens; lia|].
    rewrite (bind_some _ _ _ _ _ Hv).
    destruct (IH (<[i := v]> piles) s1) as (piles' & s' & Hf & Hlen & Hall).
    + intros j p Hj. destruct (decide (j = i)) as [->|Hji].
      * destruct (decide (i < length piles)%nat) as [Hlt|Hge].
        -- rewrite list_lookup_insert_eq in Hj by exact Hlt.
           injection Hj as <-. right. unfold mintokens, maxtokens in Hvr. lia.
        -- rewrite list_insert_ge in Hj by lia.
           apply lookup_lt_Some in Hj. lia.
      * rewrite list_lookup_insert_ne in Hj by congruence.
        destruct (Hinv j p Hj) as [[->|Hin]|Hp]; [congruence|left|right]; auto.
    + exists piles', s'. rewrite length_insert in Hlen. auto.
Qed.

(** What one run of [nimgen] produces: the drawn piles [piles0] (3 to 6
    of them, each in [2, 12]), possibly followed by one positive
    balancing pile, and a position whose controllability matches
    [fairstart]. *)
Lemma nimgen_spec (seed : option Z) (f : bool) (st : St) :
  exists piles0 piles s st',
    nimgen seed_state randbelow seed f st = Some ((piles, s), st') /\
    (3 <= length piles0 <= 6)%nat /\ Forall (fun p => 2 <= p <= 12) piles0 /\
    (piles = piles0 \/ exists b, piles = piles0 ++ [b] /\ 0 < b) /\
    exists sub opts, nimwin piles false = Some (sub, opts) /\
      (f = true -> sub <> 0) /\ (f = false -> sub = 0).
Proof.
  assert (Hs : exists s st1,
    (match seed with None => randrange randbelow maxsize | Some s => ret s end) st
      = Some (s, st1)).
  { destruct seed as [s|]; [exists s, st; reflexivity|].
    unfold randrange. replace (0 <? maxsize) with true by reflexivity.
    unfold draw_below. destruct (randbelow maxsize st) as [s st1]. eauto. }
  destruct Hs as (s & st1 & Hs).
  destruct (randint_some minpiles (maxpiles - 1) (seed_state s))
    as (k & st2 & Hk & Hkr); [unfold minpiles, maxpiles; lia|].
  unfold minpiles, maxpiles in Hkr.
  set (zeros := repeat 0 (Z.to_nat k)).
  destruct (fill_some (seq 0 (length zeros)) zeros st2)
    as (piles0 & st3 & Hfill & Hlen & Hrange).
  { intros j p Hj. left. apply in_seq. apply lookup_lt_Some in Hj. lia. }
  assert (Hlen0 : (3 <= length piles0 <= 6)%nat)
    by (rewrite Hlen; unfold zeros; rewrite repeat_length; lia).
  assert (Hnn : Forall (fun p => 0 <= p) piles0)
    by (revert Hrange; apply List.Forall_impl; intros; lia).
  assert (Hne : piles0 <> []) by (intros ->; simpl in Hlen0; lia).
  assert (Hr : reduce_xor piles0 = Some (xor_all piles0)) by (apply reduce_xor_all; exact Hne).
  set (x := xor_all piles0) in Hr.
  unfold nimgen.
  rewrite (bind_some _ _ _ _ _ Hs). cbv beta.
  erewrite bind_some by reflexivity. cbv beta.
  rewrite (bind_some _ _ _ _ _ Hk). cbv beta zeta. fold zeros.
  rewrite (bind_some _ _ _ _ _ Hfill). cbv beta.
  assert (Hsnoc : forall b, reduce_xor (piles0 ++ [b]) = Some (Z.lxor x b)).
  { intros b. rewrite reduce_xor_all by (destruct piles0; [congruence|discriminate]).
    rewrite xor_all_app, xor_all_cons.
    replace (xor_all []) with 0 by reflexivity. rewrite Z.lxor_0_r. reflexivity. }
  assert (Hnn' : forall b, 0 <= b -> Forall (fun p => 0 <= p) (piles0 ++ [b]))
    by (intros b Hb; apply Forall_app; split; [exact Hnn|constructor; auto]).
  destruct (nimwin_normal piles0 x Hnn Hr)
    as [[Hx0 Hw] | (Hx0 & m & opts & Hscan & Hw & Hpos & Hopts & Hc)];
    rewrite Hw; cbn beta iota.
  - (* the drawn position is lost for the mover *)
    rewrite Hx0 in Hsnoc. destruct f.
    + replace (negb (Bool.eqb true (negb (0 =? 0)))) with true by reflexivity.
      destruct (choice_some (seq 0 (length piles0)) st3) as (sel & st4 & Hch & Hin).
      { destruct piles0; [congruence|discriminate]. }
      rewrite (bind_some _ _ _ _ _ Hch). cbv beta.
      apply in_seq in Hin.
      destruct (lookup_lt_is_Some_2 piles0 sel) as [p Hp]; [lia|]. rewrite Hp.
      rewrite Z.sub_0_r, Z.lxor_nilpotent.
      replace (negb (0 =? 0)) with false by reflexivity.
      destruct (randint_some mintokens maxtokens st4) as (b & st5 & Hb & Hbr);
        [unfold mintokens, maxtokens; lia|].
      unfold mintokens, maxtokens in Hbr.
      rewrite (bind_some _ _ _ _ _ Hb).
      exists piles0, (piles0 ++ [b]), s, st5. split; [reflexivity|].
      split; [exact Hlen0|]. split; [exact Hrange|]. split.
      * right. exists b. split; [reflexivity|lia].
      * specialize (Hsnoc b). rewrite Z.lxor_0_l in Hsnoc.
        destruct (nimwin_normal (piles0 ++ [b]) b (Hnn' b ltac:(lia)) Hsnoc)
          as [[? _]|(_ & m' & opts' & _ & Hw' & Hpos' & _)]; [lia|].
        exists (b - 2 * m'), opts'. repeat split; auto; [lia|discriminate].
    + replace (negb (Bool.eqb false (negb (0 =? 0)))) with false by reflexivity.
      exists piles0, piles0, s, st3. split; [reflexivity|].
      split; [exact Hlen0|]. split; [exact Hrange|]. split; [left; reflexivity|]. exists 0, []. repeat split; auto; discriminate.
  - (* the drawn position is won for the mover *)
    assert (Hw0 : (x - 2 * m =? 0) = false) by (apply Z.eqb_neq; lia).
    rewrite Hw0. destruct f.
    + cbn [negb Bool.eqb]. cbn iota.
      exists piles0, piles0, s, st3. split; [reflexivity|].
      split; [exact Hlen0|]. split; [exact Hrange|]. split; [left; reflexivity|]. exists (x - 2 * m), opts. repeat split; auto.
      * lia.
      * discriminate.
    + cbn [negb Bool.eqb]. cbn iota.
      replace (match opts with [] => seq 0 (length piles0) | _ :: _ => opts end)
        with opts by (destruct opts; [congruence|reflexivity]).
      destruct (choice_some opts st3 Hopts) as (sel & st4 & Hch & Hin).
      rewrite (bind_some _ _ _ _ _ Hch). cbv beta.
      destruct (Hc sel Hin) as (p & Hp & Hm & _). rewrite Hp.
      rewrite <- Hm, sub_nimply_xor, Z.lxor_assoc, Z.lxor_nilpotent, Z.lxor_0_r.
      replace (negb (x =? 0)) with true by (symmetry; apply negb_true_iff, Z.eqb_neq; exact Hx0).
      erewrite bind_some by reflexivity.
      assert (Hxpos : 0 < x) by (assert (0 <= x) by (apply xor_all_nonneg; exact Hnn); lia).
      exists piles0, (piles0 ++ [x]), s, st4. split; [reflexivity|].
      split; [exact Hlen0|]. split; [exact Hrange|]. split.
      * right. exists x. auto.
      * specialize (Hsnoc x). rewrite Z.lxor_nilpotent in Hsnoc.
        destruct (nimwin_normal (piles0 ++ [x]) 0 (Hnn' x ltac:(lia)) Hsnoc)
          as [[_ Hw']|[? _]]; [|congruence].
        exists 0, []. repeat split; auto; discriminate.
Qed.

End Run.

End NimGenFacts.

Module NimGenClaims.
Import NimWin NimWinFacts NimGen NimGenFacts.

Section Claims.
Variable St : Type.
Variable seed_state : Z -> St.
Variable randbelow : Z -> St -> Z * St.

(** C9: with an explicit seed the result (piles, seed and the generator
    state left behind) does not depend on the generator state before the
    call; the returned seed is the caller's seed, or the one drawn when
    none is given, and passing it back reproduces the same position. *)
Theorem nimgen_reproducible :
  (forall S f st1 st2,
     nimgen seed_state randbelow (Some S) f st1 = nimgen seed_state randbelow (Some S) f st2) /\
  (forall seed f st piles s st',
     nimgen seed_state randbelow seed f st = Some ((piles, s), st') ->
     (forall S, seed = Some S -> s = S) /\
     (seed = None -> s = fst (randbelow maxsize st)) /\
     forall st'', nimgen seed_state randbelow (Some s) f st'' = Some ((piles, s), st')).
Proof.
  split; [apply nimgen_some_seed|].
  intros seed f st piles s st' H. destruct seed as [S|].
  - pose proof (nimgen_some_returns_seed St seed_state randbelow S f st piles s st' H) as ->.
    split; [congruence|]. split; [discriminate|].
    intros st''. rewrite (nimgen_some_seed St seed_state randbelow S f st'' st). exact H.
  - rewrite (nimgen_none_seed St seed_state randbelow f st st) in H.
    pose proof (nimgen_some_returns_seed St seed_state randbelow _ f st piles s st' H) as Hs.
    split; [discriminate|]. split; [intros _; exact Hs|].
    intros st''. subst s. rewrite (nimgen_some_seed St seed_state randbelow _ f st'' st). exact H.
Qed.

Hypothesis randbelow_range : forall n s, 0 < n -> 0 <= fst (randbelow n s) < n.

(** C2: for every seed, the position generated with [fairstart = true]
    is controllable under normal rules ([nimwin] returns a nonzero
    removal amount), and the one generated with [fairstart = false] is
    not (removal amount 0). *)
Theorem nimgen_fair (seed : option Z) (st : St) :
  (exists piles s st',
     nimgen seed_state randbelow seed true st = Some ((piles, s), st') /\
     exists sub opts, nimwin piles false = Some (sub, opts) /\ sub <> 0) /\
  (exists piles s st',
     nimgen seed_state randbelow seed false st = Some ((piles, s), st') /\
     exists opts, nimwin piles false = Some (0, opts)).
Proof.
  split.
  - destruct (nimgen_spec St seed_state randbelow randbelow_range seed true st)
      as (piles0 & piles & s & st' & Hrun & _ & _ & _ & sub & opts & Hw & Hsub & _).
    exists piles, s, st'. split; [exact Hrun|]. exists sub, opts. auto.
  - destruct (nimgen_spec St seed_state randbelow randbelow_range seed false st)
      as (piles0 & piles & s & st' & Hrun & _ & _ & _ & sub & opts & Hw & _ & Hsub).
    exists piles, s, st'. split; [exact Hrun|]. exists opts.
    rewrite Hw, Hsub by reflexivity. reflexivity.
Qed.

(** C10: every generated position has 3 to 7 piles, all positive: the
    drawn piles lie in [2, 12] and the balancing pile, when one is
    appended, is not 0. *)
Theorem nimgen_shape (seed : option Z) (f : bool) (st : St) :
  exists piles s st',
    nimgen seed_state randbelow seed f st = Some ((piles, s), st') /\
    (3 <= length piles <= 7)%nat /\ Forall (fun p => 0 < p) piles /\
    exists piles0, Forall (fun p => 2 <= p <= 12) piles0 /\
      (piles = piles0 \/ exists b, piles = piles0 ++ [b] /\ b <> 0).
Proof.
  destruct (nimgen_spec St seed_state randbelow randbelow_range seed f st)
    as (piles0 & piles & s & st' & Hrun & Hlen & Hrange & Hshape & _).
  exists piles, s, st'. split; [exact Hrun|].
  assert (Hpos0 : Forall (fun p => 0 < p) piles0)
    by (revert Hrange; apply List.Forall_impl; intros; lia).
  destruct Hshape as [->|(b & -> & Hb)].
  - split; [lia|]. split; [exact Hpos0|]. exists piles0. auto.
  - rewrite length_app. simpl. split; [lia|].
    split; [apply Forall_app; split; [exact Hpos0|constructor; auto]|].
    exists piles0. split; [exact Hrange|]. right. exists b. split; [reflexivity|lia].
Qed.

End Claims.

Lemma nimgen_reproducible_witness :
  nimgen script_state script_below (Some 12345) false [] =
  nimgen script_state script_below (Some 12345) false [7; 7] /\
  nimgen script_state script_below (Some 12345) false [] =
  Some (([2; 5; 11; 2; 14], 12345), [0; 0; 0]).
Proof.
  split.
  - apply (proj1 (nimgen_reproducible (list Z) script_state script_below)).
  - vm_compute. reflexivity.
Defined.

Lemma nimgen_fair_witness :
  (forall n s, 0 < n -> 0 <= fst (script_below n s) < n) /\
  (exists piles s st',
     nimgen script_state script_below (Some 12345) true [] = Some ((piles, s), st') /\
     exists sub opts, nimwin piles false = Some (sub, opts) /\ sub <> 0) /\
  (exists piles s st',
     nimgen script_state script_below (Some 12345) false [] = Some ((piles, s), st') /\
     exists opts, nimwin piles false = Some (0, opts)).
Proof.
  assert (Hr : forall n s, 0 < n -> 0 <= fst (script_below n s) < n).
  { intros n [|r s] Hn; simpl; [lia|]. apply Z.mod_pos_bound. exact Hn. }
  split; [exact Hr|].
  apply (nimgen_fair (list Z) script_state script_below Hr (Some 12345) []).
Defined.

Lemma nimgen_shape_witness :
  (forall n s, 0 < n -> 0 <= fst (script_below n s) < n) /\
  exists piles s st',
    nimgen script_state script_below (Some 12345) false [] = Some ((piles, s), st') /\
    (3 <= length piles <= 7)%nat /\ Forall (fun p => 0 < p) piles /\
    exists piles0, Forall (fun p => 2 <= p <= 12) piles0 /\
      (piles = piles0 \/ exists b, piles = piles0 ++ [b] /\ b <> 0).
Proof.
  assert (Hr : forall n s, 0 < n -> 0 <= fst (script_below n s) < n).
  { intros n [|r s] Hn; simpl; [lia|]. apply Z.mod_pos_bound. exact Hn. }
  split; [exact Hr|].
  apply (nimgen_shape (list Z) script_state script_below Hr (Some 12345) false []).
Defined.

(** The balancing pile is not bounded by [maxtokens]: with this generator
    and seed the drawn piles are [2; 5; 11; 2] and the appended one is 14. *)
Lemma nimgen_balancing_pile_14 :
  option_map fst (nimgen script_state script_below (Some 12345) false []) =
  Some ([2; 5; 11; 2; 14], 12345).
Proof. vm_compute. reflexivity. Qed.

End NimGenClaims.

(* ------------------------------------------------------------------ *)
(** ** Further properties of [nimwin] *)


Module NimWinMore.
Import NimWin NimWinFacts.

(** The smallest [sub & ~p] the loop reaches, starting from [abjunct = sub]. *)
Definition min_nimply (x : Z) (ps : list Z) (a : Z) : Z :=
  fold_left (fun acc p => Z.min acc (nimply x p)) ps a.

(** The indices, from [i] on, of the piles of [ps] with [sub & ~p = m]. *)
Fixpoint ties (x : Z) (i : nat) (ps : list Z) (m : Z) : list nat :=
  match ps with
  | [] => []
  | p :: ps' => (if nimply x p =? m then [i] else []) ++ ties x (S i) ps' m
  end.

(** The indices of the piles with [sub & ~p = m], in increasing order. *)
Definition indices_with (x : Z) (piles : list Z) (m : Z) : list nat :=
  List.filter (fun j => match piles !! j with Some p => nimply x p =? m | None => false end)
    (seq 0 (length piles)).

(** A position lost for the player to move under misère rules: every pile
    holds at most one token and an odd number of piles are non-empty. *)
Definition misere_lost (l : list Z) : Prop :=
  Forall (fun q => q <= 1) l /\ Z.odd (count_if (fun p => 0 <? p) l) = true.

(** ** The loop in closed form *)

Lemma min_nimply_cons x q ps a :
  min_nimply x (q :: ps) a = min_nimply x ps (Z.min a (nimply x q)).
Proof. reflexivity. Qed.

Lemma min_nimply_le x ps a : min_nimply x ps a <= a.
Proof.
  revert a. induction ps as [|q ps IH]; intros a; [unfold min_nimply; simpl; lia|].
  rewrite min_nimply_cons. specialize (IH (Z.min a (nimply x q))). lia.
Qed.

Lemma min_nimply_lower x ps a : Forall (fun q => min_nimply x ps a <= nimply x q) ps.
Proof.
  revert a. induction ps as [|q ps IH]; intros a; constructor; rewrite min_nimply_cons.
  - pose proof (min_nimply_le x ps (Z.min a (nimply x q))). lia.
  - apply IH.
Qed.

Lemma min_nimply_attained x ps a :
  min_nimply x ps a = a \/ exists q, In q ps /\ min_nimply x ps a = nimply x q.
Proof.
  revert a. induction ps as [|q ps IH]; intros a; [left; reflexivity|].
  rewrite min_nimply_cons.
  destruct (IH (Z.min a (nimply x q))) as [H|(q' & Hq' & H)].
  - rewrite H. destruct (Z.min_spec a (nimply x q)) as [[_ ->]|[_ ->]].
    + left. reflexivity.
    + right. exists q. split; [left|]; reflexivity.
  - right. exists q'. split; [right|]; assumption.
Qed.

Lemma scan_closed x i ps a o :
  scan x i ps a o =
  (min_nimply x ps a,
   (if min_nimply x ps a =? a then o else []) ++ ties x i ps (min_nimply x ps a)).
Proof.
  revert i a o. induction ps as [|q ps IH]; intros i a o.
  - cbn. unfold min_nimply. simpl. rewrite Z.eqb_refl, app_nil_r. reflexivity.
  - cbn [scan ties]. rewrite min_nimply_cons.
    set (n := nimply x q).
    destruct (Z.ltb_spec n a) as [Hlt|Hge].
    + rewrite Z.eqb_refl. rewrite IH. rewrite Z.min_r by lia.
      set (m' := min_nimply x ps n).
      assert (Hm' : m' <= n) by apply min_nimply_le.
      destruct (Z.eqb_spec m' a) as [|Hma]; [lia|].
      destruct (Z.eqb_spec m' n) as [Hmn|Hmn].
      * rewrite (proj2 (Z.eqb_eq n m')) by lia. reflexivity.
      * rewrite (proj2 (Z.eqb_neq n m')) by lia. reflexivity.
    + rewrite Z.min_l by lia. rewrite IH.
      set (m' := min_nimply x ps a).
      assert (Hm' : m' <= a) by apply min_nimply_le.
      destruct (Z.eqb_spec n a) as [Hna|Hna].
      * destruct (Z.eqb_spec m' a) as [Hma|Hma].
        -- rewrite (proj2 (Z.eqb_eq n m')) by lia. rewrite <- app_assoc. reflexivity.
        -- rewrite (proj2 (Z.eqb_neq n m')) by lia. reflexivity.
      * rewrite (proj2 (Z.eqb_neq n m')) by lia.
        destruct (m' =? a); reflexivity.
Qed.

Lemma ties_indices x pre ps m :
  ties x (length pre) ps m =
  List.filter (fun j => match (pre ++ ps) !! j with
                        | Some p => nimply x p =? m | None => false end)
    (seq (length pre) (length ps)).
Proof.
  revert pre. induction ps as [|q ps IH]; intros pre; [reflexivity|].
  cbn [ties length seq List.filter].
  rewrite (list_lookup_middle pre ps q (length pre) eq_refl).
  replace (pre ++ q :: ps) with ((pre ++ [q]) ++ ps) by (rewrite <- app_assoc; reflexivity).
  replace (S (length pre)) with (length (pre ++ [q])) by (rewrite length_app; simpl; lia).
  rewrite <- IH. destruct (nimply x q =? m); reflexivity.
Qed.

Lemma ties_all x piles m : ties x 0 piles m = indices_with x piles m.
Proof. apply (ties_indices x [] piles m). Qed.

Lemma in_indices_with x piles m j :
  In j (indices_with x piles m) <-> exists p, piles !! j = Some p /\ nimply x p = m.
Proof.
  unfold indices_with. rewrite filter_In, in_seq. split.
  - intros [_ H]. destruct (piles !! j) as [p|] eqn:E; [|discriminate].
    exists p. split; [reflexivity|]. apply Z.eqb_eq, H.
  - intros (p & Hp & Hm). rewrite Hp. split; [|apply Z.eqb_eq, Hm].
    apply lookup_lt_Some in Hp. lia.
Qed.

(** The loop's result on a whole position: the minimum and all its ties. *)
Lemma scan_whole x piles :
  scan x 0 piles x [] = (min_nimply x piles x, indices_with x piles (min_nimply x piles x)).
Proof.
  rewrite scan_closed, ties_all.
  destruct (min_nimply x piles x =? x); reflexivity.
Qed.

(** ** Counting piles *)

Lemma count_if_acc (f : Z -> bool) (l : list Z) (a : Z) :
  fold_left (fun acc p => if f p then acc + 1 else acc) l a = a + count_if f l.
Proof.
  unfold count_if. revert a. induction l as [|q l IH]; intros a; simpl; [lia|].
  rewrite IH, (IH (if f q then 0 + 1 else 0)). destruct (f q); lia.
Qed.

Lemma count_if_cons f q l :
  count_if f (q :: l) = (if f q then 1 else 0) + count_if f l.
Proof. unfold count_if at 1. simpl. rewrite count_if_acc. destruct (f q); lia. Qed.

Lemma count_if_nil f : count_if f [] = 0.
Proof. reflexivity. Qed.

Lemma count_if_app f l r : count_if f (l ++ r) = count_if f l + count_if f r.
Proof.
  induction l as [|q l IH]; simpl; [rewrite count_if_nil; lia|].
  rewrite !count_if_cons, IH. lia.
Qed.

Lemma count_if_nonneg f l : 0 <= count_if f l.
Proof.
  induction l as [|q l IH]; [rewrite count_if_nil; lia|].
  rewrite count_if_cons. destruct (f q); lia.
Qed.

Lemma count_if_insert f l i p v :
  l !! i = Some p ->
  count_if f (<[i := v]> l) + (if f p then 1 else 0) =
  count_if f l + (if f v then 1 else 0).
Proof.
  intros Hp. pose proof (lookup_lt_Some _ _ _ Hp) as Hi.
  rewrite insert_take_drop by exact Hi.
  replace (count_if f l) with (count_if f (take i l ++ p :: drop (S i) l))
    by (rewrite take_drop_middle; auto).
  rewrite !count_if_app, !count_if_cons. lia.
Qed.

Lemma insert_middle {A : Type} (pre post : list A) (P v : A) :
  <[length pre := v]> (pre ++ P :: post) = pre ++ v :: post.
Proof. induction pre as [|q pre IH]; simpl; [reflexivity|]. rewrite IH. reflexivity. Qed.

Lemma count_zero_small l :
  count_if (fun p => 1 <? p) l = 0 -> Forall (fun p => p <= 1) l.
Proof.
  induction l as [|q l IH]; intros H; [constructor|].
  rewrite count_if_cons in H. pose proof (count_if_nonneg (fun p => 1 <? p) l).
  destruct (Z.ltb_spec 1 q); [lia|]. constructor; [lia|apply IH; lia].
Qed.

(** At most one pile holds more than one token: either none does, or
    exactly one, between piles of at most one token. *)
Lemma endgame_shape (piles : list Z) :
  count_if (fun p => 1 <? p) piles <= 1 ->
  Forall (fun p => p <= 1) piles \/
  exists pre P post, piles = pre ++ P :: post /\ 1 < P /\
    Forall (fun p => p <= 1) pre /\ Forall (fun p => p <= 1) post.
Proof.
  induction piles as [|q l IH]; intros H; [left; constructor|].
  rewrite count_if_cons in H. pose proof (count_if_nonneg (fun p => 1 <? p) l).
  destruct (Z.ltb_spec 1 q) as [Hq|Hq].
  - right. exists [], q, l. repeat split; auto. apply count_zero_small. lia.
  - destruct (IH ltac:(lia)) as [Hl|(pre & P & post & -> & HP & Hpre & Hpost)].
    + left. constructor; auto.
    + right. exists (q :: pre), P, post. repeat split; auto.
Qed.

(** ** XOR of piles of at most one token *)

Lemma xor_all_nil : xor_all [] = 0.
Proof. reflexivity. Qed.

Lemma xor_all_01 l :
  Forall (fun p => 0 <= p <= 1) l ->
  xor_all l = if Z.odd (count_if (fun p => 0 <? p) l) then 1 else 0.
Proof.
  induction 1 as [|q l Hq _ IH]; [reflexivity|].
  rewrite xor_all_cons, count_if_cons, IH, Z.odd_add.
  assert (q = 0 \/ q = 1) as [->| ->] by lia;
    destruct (Z.odd (count_if (fun p => 0 <? p) l)); reflexivity.
Qed.

Lemma mod2_eqb_odd c : (c mod 2 =? 0) = negb (Z.odd c).
Proof.
  rewrite Zmod_odd. destruct (Z.odd c); reflexivity.
Qed.

Lemma misere_bias_endgame piles :
  count_if (fun p => 1 <? p) piles <= 1 ->
  misere_bias piles true =
  if Z.odd (count_if (fun p => 0 <? p) piles) then -1 else 1.
Proof.
  intros H. unfold misere_bias. apply Z.leb_le in H. rewrite H. simpl.
  rewrite mod2_eqb_odd, negb_involutive. reflexivity.
Qed.

Lemma misere_bias_busy piles misere :
  2 <= count_if (fun p => 1 <? p) piles -> misere_bias piles misere = 0.
Proof.
  intros H. unfold misere_bias.
  replace (count_if (fun p => 1 <? p) piles <=? 1) with false
    by (symmetry; apply Z.leb_gt; lia).
  rewrite andb_false_r. reflexivity.
Qed.

(** ** Bitwise facts for the endgame *)

Lemma lxor_1 P : Z.lxor P 1 = if Z.odd P then P - 1 else P + 1.
Proof.
  assert (Hl : forall a, Z.land a 1 = a mod 2).
  { intros a. change 1 with (Z.ones 1). rewrite Z.land_ones by lia. reflexivity. }
  destruct (Z.odd P) eqn:E.
  - assert (Hm : Z.land (P - 1) 1 = 0).
    { rewrite Hl. rewrite Zmod_odd. rewrite Z.odd_sub, E. reflexivity. }
    pose proof (Z.add_nocarry_lxor (P - 1) 1 Hm) as H.
    replace (P - 1 + 1) with P in H by lia. rewrite H at 1.
    rewrite Z.lxor_assoc, Z.lxor_nilpotent, Z.lxor_0_r. reflexivity.
  - assert (Hm : Z.land P 1 = 0) by (rewrite Hl, Zmod_odd, E; reflexivity).
    rewrite <- (Z.add_nocarry_lxor P 1 Hm). reflexivity.
Qed.

Lemma lxor_1_ge2 P : 2 <= P -> 2 <= Z.lxor P 1.
Proof. intros H. rewrite lxor_1. destruct (Z.odd P) eqn:E; [|lia].
  assert (P <> 2) by (intros ->; discriminate E). lia. Qed.

Lemma nimply_small x q : 2 <= x -> 0 <= q <= 1 -> 2 <= nimply x q.
Proof.
  intros Hx Hq. assert (q = 0 \/ q = 1) as [->| ->] by lia.
  - unfold nimply. rewrite Z.lnot_0, Z.land_m1_r. exact Hx.
  - pose proof (nimply_split x 1) as H.
    assert (Hl : Z.land x 1 = x mod 2).
    { change 1 with (Z.ones 1). rewrite Z.land_ones by lia. reflexivity. }
    rewrite Hl in H. pose proof (Z.div_mod x 2 ltac:(lia)).
    pose proof (Z.mod_pos_bound x 2 ltac:(lia)). lia.
Qed.

Lemma land_1 a : Z.land a 1 = a mod 2.
Proof. change 1 with (Z.ones 1). rewrite Z.land_ones by lia. reflexivity. Qed.

Lemma nimply_flip P : 0 <= nimply (Z.lxor P 1) P <= 1.
Proof.
  assert (H : nimply (Z.lxor P 1) P = Z.land (Z.lnot P) 1).
  { unfold nimply. rewrite (Z.land_comm (Z.lnot P)). bitwise. }
  rewrite H, land_1.
  pose proof (Z.mod_pos_bound (Z.lnot P) 2 ltac:(lia)). lia.
Qed.

Lemma nimply_self P : nimply P P = 0.
Proof. unfold nimply. apply Z.land_lnot_diag. Qed.

(** ** What [nimwin] computes *)

Lemma nimwin_cases piles misere r opts :
  nimwin piles misere = Some (r, opts) ->
  exists x, reduce_xor piles = Some x /\
    ((x + misere_bias piles misere = 0 /\ r = 0 /\ opts = []) \/
     (x + misere_bias piles misere <> 0 /\ exists m,
        scan x 0 piles x [] = (m, opts) /\ r = x - 2 * m + misere_bias piles misere)).
Proof.
  unfold nimwin. destruct (reduce_xor piles) as [x|]; [|discriminate].
  intros H. exists x. split; [reflexivity|].
  destruct (Z.eqb_spec (x + misere_bias piles misere) 0) as [E|E]; simpl in H.
  - injection H as <- <-. left. repeat split; lia.
  - destruct (scan x 0 piles x []) as [m o] eqn:Es. injection H as <- <-.
    right. split; [exact E|]. exists m. split; reflexivity.
Qed.

(** A pile of at most one token never has [sub & ~p] of 1 or less when
    [sub >= 2]: the only such candidate is the one big pile. *)
Lemma only_big_candidate pre P post x m j p :
  Forall (fun q => 0 <= q <= 1) pre -> Forall (fun q => 0 <= q <= 1) post ->
  2 <= x -> m <= 1 ->
  (pre ++ P :: post) !! j = Some p -> nimply x p = m ->
  j = length pre /\ p = P.
Proof.
  intros Hpre Hpost Hx Hm Hj Hp.
  destruct (Nat.lt_total j (length pre)) as [Hlt|[Heq|Hgt]].
  - rewrite lookup_app_l in Hj by exact Hlt.
    assert (0 <= p <= 1) by exact (Forall_lookup_1 _ _ _ _ Hpre Hj).
    pose proof (nimply_small x p Hx ltac:(lia)). lia.
  - subst j. rewrite list_lookup_middle in Hj by reflexivity. injection Hj as <-. auto.
  - rewrite lookup_app_r in Hj by lia.
    destruct (j - length pre)%nat as [|k] eqn:E; [lia|]. simpl in Hj.
    assert (0 <= p <= 1) by exact (Forall_lookup_1 _ _ _ _ Hpost Hj).
    pose proof (nimply_small x p Hx ltac:(lia)). lia.
Qed.

Lemma forall_01 l : Forall (fun q => 0 <= q) l -> Forall (fun q => q <= 1) l ->
  Forall (fun q => 0 <= q <= 1) l.
Proof.
  intros H1 H2. rewrite List.Forall_forall in *. intros q Hq. split; auto.
Qed.

Lemma lookup_in_piles (piles : list Z) j p : piles !! j = Some p -> In p piles.
Proof. intros H. apply list_elem_of_In. eapply list_elem_of_lookup_2. exact H. Qed.

(** The misère endgame: at most one pile holds more than one token. *)
Lemma misere_endgame_core piles r opts :
  Forall (fun p => 0 <= p) piles ->
  count_if (fun p => 1 <? p) piles <= 1 ->
  nimwin piles true = Some (r, opts) ->
  (opts = [] <-> misere_lost piles) /\ (opts = [] -> r = 0) /\
  forall i, In i opts -> exists p, piles !! i = Some p /\
    ((p = 0 /\ r = 1 /\ Forall (fun q => q <= 1) piles) \/
     (1 <= r <= p /\ misere_lost (<[i := p - r]> piles))).
Proof.
  intros Hnn Hend Hw.
  destruct (nimwin_cases piles true r opts Hw) as (x & Hr & Hcase).
  destruct (reduce_xor_some piles x Hr) as [Hne Hx].
  assert (Hx0 : 0 <= x) by (subst; apply xor_all_nonneg; auto).
  rewrite (misere_bias_endgame piles Hend) in Hcase.
  set (c := count_if (fun p => 0 <? p) piles) in *.
  destruct (endgame_shape piles Hend) as [Hsmall|(pre & P & post & Hpiles & HP & Hpre & Hpost)].
  - (* every pile holds at most one token *)
    assert (H01 : Forall (fun q => 0 <= q <= 1) piles) by (apply forall_01; auto).
    rewrite (xor_all_01 piles H01) in Hx. fold c in Hx.
    destruct (Z.odd c) eqn:Ec.
    + destruct Hcase as [(_ & -> & ->)|(Hc & _)]; [|lia].
      repeat split; auto. intros i [].
    + destruct Hcase as [(Hc & _)|(_ & m & Hs & ->)]; [lia|].
      subst x. pose proof (scan_facts piles 0 Hnn Hne ltac:(lia)) as Hf.
      rewrite Hs in Hf. destruct Hf as (Hopts & _ & _ & Hcand).
      assert (Hm : m = 0).
      { destruct opts as [|j ?]; [congruence|].
        destruct (Hcand j (or_introl eq_refl)) as (p & _ & Hm).
        unfold nimply in Hm. rewrite Z.land_0_l in Hm. lia. }
      subst m. split; [|split].
      * split; [intros; contradiction|]. intros [_ Hodd]. fold c in Hodd. congruence.
      * intros; contradiction.
      * intros i Hi. destruct (Hcand i Hi) as (p & Hp & _). exists p. split; [exact Hp|].
        assert (0 <= p <= 1) by exact (Forall_lookup_1 _ _ _ _ H01 Hp).
        assert (p = 0 \/ p = 1) as [->| ->] by lia; [left; auto|right].
        split; [lia|]. split.
        -- apply Forall_insert; [exact Hsmall|lia].
        -- pose proof (count_if_insert (fun p => 0 <? p) piles i 1 (1 - (0 - 2 * 0 + 1)) Hp)
             as Hcnt. simpl in Hcnt. fold c in Hcnt.
           replace (count_if (fun p => 0 <? p) (<[i:=1 - (0 - 2 * 0 + 1)]> piles)) with (c - 1)
             by lia.
           rewrite Z.odd_sub, Ec. reflexivity.
  - (* one pile [P] holds more than one token *)
    subst piles.
    assert (Hpre01 : Forall (fun q => 0 <= q <= 1) pre).
    { apply forall_01; auto. apply Forall_app in Hnn as [? _]; auto. }
    assert (Hpost01 : Forall (fun q => 0 <= q <= 1) post).
    { apply forall_01; auto. apply Forall_app in Hnn as [_ H]. inversion H; auto. }
    set (c' := count_if (fun p => 0 <? p) (pre ++ post)).
    assert (Hc : c = c' + 1).
    { subst c c'. rewrite !count_if_app, count_if_cons.
      destruct (Z.ltb_spec 0 P); lia. }
    assert (Hx' : x = Z.lxor P (if Z.odd c' then 1 else 0)).
    { assert (H01 : xor_all (pre ++ post) = if Z.odd c' then 1 else 0)
        by (apply xor_all_01; apply Forall_app; auto).
      rewrite Hx, <- H01, !xor_all_app, xor_all_cons.
      rewrite <- !Z.lxor_assoc, (Z.lxor_comm (xor_all pre) P). reflexivity. }
    assert (HPin : In P (pre ++ P :: post)) by (apply in_or_app; right; left; reflexivity).
    assert (Hnotlost : ~ misere_lost (pre ++ P :: post)).
    { intros [Hle _]. rewrite List.Forall_forall in Hle. specialize (Hle P HPin). lia. }
    rewrite Hc, Z.odd_add in Hcase. simpl in Hcase.
    destruct Hcase as [(Hc0 & _)|(_ & m & Hs & Hrm)].
    { destruct (Z.odd c') eqn:Ec; simpl in Hc0.
      - rewrite Hx', lxor_1 in Hc0. destruct (Z.odd P); lia.
      - rewrite Hx', Z.lxor_0_r in Hc0. lia. }
    pose proof (scan_facts _ x Hnn ltac:(destruct pre; discriminate) Hx0) as Hf.
    rewrite Hs in Hf. destruct Hf as (Hopts & _ & Hall & Hcand).
    rewrite List.Forall_forall in Hall. specialize (Hall P HPin).
    assert (Hx2 : 2 <= x).
    { rewrite Hx'. destruct (Z.odd c'); [apply lxor_1_ge2; lia|rewrite Z.lxor_0_r; lia]. }
    assert (Hm1 : m <= 1).
    { destruct (Z.odd c'); rewrite Hx' in Hall;
        [pose proof (nimply_flip P)|rewrite Z.lxor_0_r, nimply_self in Hall]; lia. }
    split; [|split].
    + split; [intros; contradiction|intros H; contradiction].
    + intros; contradiction.
    + intros i Hi. destruct (Hcand i Hi) as (p & Hp & Hm).
      destruct (only_big_candidate pre P post x m i p Hpre01 Hpost01 Hx2 Hm1 Hp Hm)
        as [-> ->].
      exists P. split; [exact Hp|]. right.
      rewrite insert_middle.
      assert (Hrem : P - (x - 2 * m) = Z.lxor x P) by (rewrite <- Hm; apply sub_nimply_xor).
      destruct (Z.odd c') eqn:Ec; simpl in Hrm; cbn in Hx'.
      * assert (HxP : Z.lxor x P = 1).
        { rewrite Hx', (Z.lxor_comm P 1), Z.lxor_assoc, Z.lxor_nilpotent, Z.lxor_0_r.
          reflexivity. }
        replace (P - r) with 0 by lia.
        split; [lia|]. split.
        -- apply Forall_app. split; [|constructor]; auto. lia.
        -- rewrite count_if_app, count_if_cons. simpl.
           fold (count_if (fun p => 0 <? p) post).
           replace (count_if (fun p => 0 <? p) pre + (0 + count_if (fun p => 0 <? p) post))
             with c' by (subst c'; rewrite count_if_app; lia).
           exact Ec.
      * assert (HxP : Z.lxor x P = 0).
        { rewrite Hx', Z.lxor_0_r. apply Z.lxor_nilpotent. }
        replace (P - r) with 1 by lia.
        split; [lia|]. split.
        -- apply Forall_app. split; [|constructor]; auto. lia.
        -- rewrite count_if_app, count_if_cons. simpl.
           replace (count_if (fun p => 0 <? p) pre + (1 + count_if (fun p => 0 <? p) post))
             with (c' + 1) by (subst c'; rewrite count_if_app; lia).
           rewrite Z.odd_add, Ec. reflexivity.
Qed.

(** ** Properties *)

(** [nimwin] in closed form: with [x] the XOR of the piles and [b] the
    misère bias, the result is [(0, ())] when [x + b = 0]; otherwise the
    removal is [x - 2 * m + b], where [m] is the least [x & ~p] over the
    piles (and [x] itself), and the candidates are all indices whose pile
    reaches [m], in increasing order. *)
Theorem nimwin_closed_form (piles : list Z) (misere : bool) (x : Z) :
  reduce_xor piles = Some x ->
  nimwin piles misere =
  if x + misere_bias piles misere =? 0 then Some (0, [])
  else Some (x - 2 * min_nimply x piles x + misere_bias piles misere,
             indices_with x piles (min_nimply x piles x)).
Proof.
  intros Hr. unfold nimwin. rewrite Hr, scan_whole.
  destruct (Z.eqb_spec (x + misere_bias piles misere) 0) as [E|E]; simpl.
  - rewrite E. reflexivity.
  - reflexivity.
Qed.

Lemma nimwin_closed_form_witness :
  reduce_xor [6; 6; 2; 1] = Some 3 /\
  nimwin [6; 6; 2; 1] false =
  if 3 + misere_bias [6; 6; 2; 1] false =? 0 then Some (0, [])
  else Some (3 - 2 * min_nimply 3 [6; 6; 2; 1] 3 + misere_bias [6; 6; 2; 1] false,
             indices_with 3 [6; 6; 2; 1] (min_nimply 3 [6; 6; 2; 1] 3)).
Proof. split; [reflexivity|]. apply nimwin_closed_form. reflexivity. Defined.

(** Normal play: on non-negative piles the removal amount is 0, and the
    candidate tuple is empty, exactly when the XOR of the piles is 0. *)
Theorem nimwin_normal_no_move (piles : list Z) (r : Z) (opts : list nat) :
  Forall (fun p => 0 <= p) piles -> nimwin piles false = Some (r, opts) ->
  (r = 0 <-> xor_all piles = 0) /\ (opts = [] <-> xor_all piles = 0).
Proof.
  intros Hnn Hw. destruct (nimwin_cases _ _ _ _ Hw) as (x & Hr & _).
  destruct (reduce_xor_some piles x Hr) as [_ Hx]. rewrite <- Hx.
  destruct (nimwin_normal piles x Hnn Hr)
    as [[-> Hw']|(Hx0 & m & o & _ & Hw' & Hpos & Hne & _)];
    rewrite Hw in Hw'; injection Hw' as -> ->.
  - tauto.
  - split; split; intros; try contradiction; lia.
Qed.

Lemma nimwin_normal_no_move_witness :
  Forall (fun p => 0 <= p) [2; 2] /\ nimwin [2; 2] false = Some (0, []) /\
  (0 = 0 <-> xor_all [2; 2] = 0) /\ (@nil nat = [] <-> xor_all [2; 2] = 0).
Proof.
  split; [repeat constructor; lia|]. split; [reflexivity|].
  apply (nimwin_normal_no_move [2; 2] 0 []); [repeat constructor; lia|reflexivity].
Defined.

(** Outside the endgame (two or more piles hold more than one token) the
    misère flag changes nothing. *)
Theorem nimwin_misere_before_endgame (piles : list Z) :
  2 <= count_if (fun p => 1 <? p) piles -> nimwin piles true = nimwin piles false.
Proof.
  intros H. unfold nimwin. rewrite (misere_bias_busy piles true H), misere_bias_false.
  reflexivity.
Qed.

Lemma nimwin_misere_before_endgame_witness :
  2 <= count_if (fun p => 1 <? p) [6; 6; 2; 1] /\
  nimwin [6; 6; 2; 1] true = nimwin [6; 6; 2; 1] false.
Proof.
  split; [vm_compute; discriminate|].
  apply nimwin_misere_before_endgame. vm_compute. discriminate.
Defined.

(** The misère endgame (at most one pile holds more than one token, all
    piles non-negative): [nimwin] reports no candidate, with removal 0,
    exactly when the position is already lost for the player to move
    (every pile at most 1, an odd number of non-empty piles).  Otherwise,
    for every candidate pile that is not empty, the removal amount is
    between 1 and the pile, and removing it leaves a lost position for the
    opponent; an empty candidate pile only occurs, with removal 1, when
    every pile holds at most one token. *)
Theorem nimwin_misere_endgame (piles : list Z) (r : Z) (opts : list nat) :
  Forall (fun p => 0 <= p) piles ->
  count_if (fun p => 1 <? p) piles <= 1 ->
  nimwin piles true = Some (r, opts) ->
  (opts = [] <-> misere_lost piles) /\ (opts = [] -> r = 0) /\
  forall i, In i opts -> exists p, piles !! i = Some p /\
    ((p = 0 /\ r = 1 /\ Forall (fun q => q <= 1) piles) \/
     (1 <= r <= p /\ misere_lost (<[i := p - r]> piles))).
Proof. apply misere_endgame_core. Qed.

Lemma nimwin_misere_endgame_witness :
  Forall (fun p => 0 <= p) [1; 2; 1] /\
  count_if (fun p => 1 <? p) [1; 2; 1] <= 1 /\
  nimwin [1; 2; 1] true = Some (1, [1%nat]) /\
  (([1%nat] = [] <-> misere_lost [1; 2; 1]) /\ ([1%nat] = [] -> 1 = 0) /\
   forall i, In i [1%nat] -> exists p, [1; 2; 1] !! i = Some p /\
     ((p = 0 /\ 1 = 1 /\ Forall (fun q => q <= 1) [1; 2; 1]) \/
      (1 <= 1 <= p /\ misere_lost (<[i := p - 1]> [1; 2; 1])))).
Proof.
  split; [repeat constructor; lia|]. split; [vm_compute; discriminate|].
  split; [reflexivity|].
  apply nimwin_misere_endgame; [repeat constructor; lia|vm_compute; discriminate|reflexivity].
Defined.

(** Normal play with a nonzero XOR: among all legal moves that leave a
    zero XOR, [nimwin] returns the largest removal amount, and its
    candidates are exactly the piles from which a winning move removes
    that amount. *)
Theorem nimwin_largest_winning_move (piles : list Z) (r : Z) (opts : list nat) :
  Forall (fun p => 0 <= p) piles -> xor_all piles <> 0 ->
  nimwin piles false = Some (r, opts) ->
  forall i p k, piles !! i = Some p -> 0 < k <= p ->
    xor_all (<[i := p - k]> piles) = 0 ->
    k <= r /\ (k = r <-> In i opts).
Proof.
  intros Hnn Hx0 Hw i p k Hp Hk Hz.
  destruct (nimwin_cases _ _ _ _ Hw) as (x & Hr & Hcase).
  destruct (reduce_xor_some piles x Hr) as [Hne Hx].
  rewrite misere_bias_false in Hcase.
  destruct Hcase as [(Hc & _)|(_ & m & Hs & ->)]; [rewrite <- Hx in Hx0; lia|].
  rewrite scan_whole in Hs. injection Hs as <- <-.
  rewrite (xor_all_insert piles i p _ Hp), <- Hx in Hz.
  assert (Hz' : Z.lxor x p = p - k) by (apply Z.lxor_eq_0_iff; exact Hz).
  pose proof (sub_nimply_xor x p) as Hsub. rewrite Hz' in Hsub.
  assert (Hkv : k = x - 2 * nimply x p) by lia.
  pose proof (Forall_lookup_1 _ _ _ _ (min_nimply_lower x piles x) Hp) as Hmin.
  simpl in Hmin. split; [lia|].
  rewrite Z.add_0_r, in_indices_with. split.
  - intros Hkr. exists p. split; [exact Hp|]. lia.
  - intros (p' & Hp' & Hm). rewrite Hp in Hp'. injection Hp' as <-. lia.
Qed.

Lemma nimwin_largest_winning_move_witness :
  Forall (fun p => 0 <= p) [6; 6; 2; 1] /\ xor_all [6; 6; 2; 1] <> 0 /\
  nimwin [6; 6; 2; 1] false = Some (1, [0%nat; 1%nat; 2%nat]) /\
  [6; 6; 2; 1] !! 3%nat = Some 1 /\ 0 < 1 <= 1 /\
  xor_all (<[3%nat := 1 - 1]> [6; 6; 2; 1]) <> 0 /\
  (forall i p k, [6; 6; 2; 1] !! i = Some p -> 0 < k <= p ->
     xor_all (<[i := p - k]> [6; 6; 2; 1]) = 0 ->
     k <= 1 /\ (k = 1 <-> In i [0%nat; 1%nat; 2%nat])).
Proof.
  split; [repeat constructor; lia|]. split; [vm_compute; discriminate|].
  split; [reflexivity|]. split; [reflexivity|]. split; [lia|].
  split; [vm_compute; discriminate|].
  apply nimwin_largest_winning_move; [repeat constructor; lia|vm_compute; discriminate|reflexivity].
Defined.

End NimWinMore.

(* ------------------------------------------------------------------ *)
(** ** Further properties of [alpha_index] *)


Module AlphaIndexMore.
Import AlphaIndex AlphaIndexClaims.
Open Scope string_scope.

(** An ASCII letter, in either case. *)
Definition is_ascii_letter (c : ascii) : bool :=
  let k := nat_of_ascii c in
  ((65 <=? k)%nat && (k <=? 90)%nat) || ((97 <=? k)%nat && (k <=? 122)%nat).

Fixpoint all_letters (s : string) : bool :=
  match s with
  | EmptyString => true
  | String c s' => is_ascii_letter c && all_letters s'
  end.

(** Checked over all 256 characters: an ASCII letter upper-cases to a
    letter A-Z, an ASCII character that is not a letter is left as it
    is, and a character other than A-Z is not found in [numalpha[10:]]. *)
Definition char_ok (c : ascii) : bool :=
  implb (is_ascii_letter c) (is_letter (ascii_upper c)) &&
  implb ((nat_of_ascii c <? 128)%nat && negb (is_ascii_letter c))
    (Ascii.eqb (ascii_upper c) c) &&
  implb (negb (is_letter c)) (match str_index letters c with None => true | Some _ => false end).

Lemma char_ok_all : forallb char_ok (map ascii_of_nat (seq 0 256)) = true.
Proof. vm_compute. reflexivity. Qed.

Lemma char_facts (c : ascii) : char_ok c = true.
Proof.
  pose proof char_ok_all as Hall. rewrite forallb_forall in Hall.
  apply Hall. rewrite <- (ascii_nat_embedding c).
  apply in_map, in_seq. pose proof (nat_ascii_bounded c). lia.
Qed.

Lemma upper_letter (c : ascii) : is_ascii_letter c = true -> is_letter (ascii_upper c) = true.
Proof.
  intros H. pose proof (char_facts c) as Hc. unfold char_ok in Hc. rewrite H in Hc.
  apply andb_prop in Hc as [Hc _]. apply andb_prop in Hc as [Hc _]. exact Hc.
Qed.

Lemma upper_nonletter (c : ascii) :
  (nat_of_ascii c < 128)%nat -> is_ascii_letter c = false -> ascii_upper c = c.
Proof.
  intros H1 H2. pose proof (char_facts c) as Hc. unfold char_ok in Hc.
  rewrite H2 in Hc. apply Nat.ltb_lt in H1. rewrite H1 in Hc. simpl in Hc.
  apply andb_prop in Hc as [Hc _]. apply Ascii.eqb_eq. exact Hc.
Qed.

Lemma letter_is_ascii_letter (c : ascii) : is_letter c = true -> is_ascii_letter c = true.
Proof. unfold is_letter, is_ascii_letter. intros ->. reflexivity. Qed.

Lemma index_nonletter (c : ascii) : is_letter c = false -> str_index letters c = None.
Proof.
  intros H. pose proof (char_facts c) as Hc. unfold char_ok in Hc.
  rewrite H in Hc. destruct (str_index letters c); [|reflexivity].
  exfalso. simpl in Hc. rewrite andb_false_r in Hc. discriminate.
Qed.

Lemma length_upper (s : string) : String.length (str_upper s) = String.length s.
Proof. induction s as [|c s IH]; simpl; congruence. Qed.

Lemma upper_all_letters (s : string) :
  all_letters s = true -> well_formed (str_upper s) = true.
Proof.
  induction s as [|c s IH]; simpl; [reflexivity|].
  intros H. apply andb_prop in H as [Hc Hs]. rewrite upper_letter, IH; auto.
Qed.

Lemma upper_well_formed (s : string) : well_formed s = true -> all_letters s = true.
Proof.
  induction s as [|c s IH]; simpl; [reflexivity|].
  intros H. apply andb_prop in H as [Hc Hs]. rewrite letter_is_ascii_letter, IH; auto.
Qed.

Lemma upper_idem (s : string) : all_letters s = true -> str_upper (str_upper s) = str_upper s.
Proof. intros H. apply str_upper_letters, upper_all_letters, H. Qed.

Lemma translate_none (t : string) (c : ascii) :
  In c (list_ascii_of_string t) -> is_letter c = false -> translate_digits t = None.
Proof.
  induction t as [|d t IH]; cbn [translate_digits list_ascii_of_string In]; [intros []|].
  intros [<-|Hin] Hc.
  - rewrite index_nonletter by exact Hc. reflexivity.
  - destruct (str_index letters d) as [k|]; [|reflexivity].
    rewrite IH by assumption. destruct (get k numalpha); reflexivity.
Qed.

Lemma in_upper (s : string) (c : ascii) :
  In c (list_ascii_of_string s) -> (nat_of_ascii c < 128)%nat -> is_ascii_letter c = false ->
  In c (list_ascii_of_string (str_upper s)).
Proof.
  induction s as [|d s IH]; simpl; [intros []|].
  intros [<-|Hin] H1 H2.
  - left. apply upper_nonletter; assumption.
  - right. auto.
Qed.

Lemma floorval_defined_upto :
  forallb (fun L => match floorval (Z.of_nat L) with Some _ => true | None => false end)
    (seq 1 218) = true.
Proof. vm_compute. reflexivity. Qed.

Lemma floorval_some (L : nat) : (1 <= L <= 218)%nat -> exists F, floorval (Z.of_nat L) = Some F.
Proof.
  intros HL. pose proof floorval_defined_upto as H.
  rewrite forallb_forall in H. specialize (H L ltac:(apply in_seq; lia)).
  destruct (floorval (Z.of_nat L)) as [F|]; [eauto|discriminate].
Qed.

Lemma floorval_none (L : Z) : 219 <= L -> floorval L = None.
Proof.
  intros HL. destruct (Z.eq_dec L 219) as [->|]; [vm_compute; reflexivity|].
  apply floorval_overflow. lia.
Qed.

End AlphaIndexMore.
Module AlphaIndexMore2.
Import AlphaIndex AlphaIndexClaims AlphaIndexMore.
Open Scope string_scope.

Lemma mod_26_mul (n P : Z) : 0 < P -> n mod (26 * P) = n mod 26 + 26 * ((n / 26) mod P).
Proof.
  intros HP. symmetry. apply (Z.mod_unique _ _ ((n / 26) / P)).
  - left. pose proof (Z.mod_pos_bound n 26 ltac:(lia)).
    pose proof (Z.mod_pos_bound (n / 26) P HP).
    set (a := n mod 26) in *. set (b := (n / 26) mod P) in *.
    clearbody a b. nia.
  - pose proof (Z.div_mod n 26 ltac:(lia)) as H1. pose proof (Z.div_mod (n / 26) P ltac:(lia)) as H2.
    set (q := n / 26) in *. set (q2 := q / P) in *. set (r2 := q mod P) in *. set (r := n mod 26) in *.
    clearbody q q2 r2 r. subst. ring.
Qed.

Lemma letters_get (k : nat) : (k < 26)%nat -> get k letters = Some (ascii_of_nat (65 + k)).
Proof.
  intros Hk. do 26 (destruct k as [|k]; [reflexivity|]). lia.
Qed.

Lemma append_assoc' (s t u : string) : (s ++ t) ++ u = s ++ (t ++ u).
Proof. induction s as [|c s IH]; simpl; congruence. Qed.

Lemma length_append' (s t : string) :
  String.length (s ++ t) = (String.length s + String.length t)%nat.
Proof. induction s as [|c s IH]; simpl; congruence. Qed.

Lemma well_formed_append (s t : string) :
  well_formed (s ++ t) = well_formed s && well_formed t.
Proof. induction s as [|c s IH]; simpl; [reflexivity|]. rewrite IH, andb_assoc. reflexivity. Qed.

Lemma base26_acc_append (s t : string) (a : Z) :
  base26_acc (s ++ t) a = base26_acc t (base26_acc s a).
Proof. revert a. induction s as [|c s IH]; intros a; simpl; [reflexivity|]. apply IH. Qed.

Lemma encode_digits_value (fuel : nat) (n : Z) (acc : string) :
  exists t, encode_digits fuel n acc = Some (t ++ acc) /\ well_formed t = true /\
    String.length t = fuel /\ base26_value t = n mod 26 ^ Z.of_nat fuel.
Proof.
  revert n acc. induction fuel as [|fuel IH]; intros n acc; cbn [encode_digits].
  - exists "". repeat split. simpl. rewrite Z.mod_1_r. reflexivity.
  - pose proof (Z.mod_pos_bound n 26 ltac:(lia)) as Hm.
    rewrite letters_get by lia.
    set (c := ascii_of_nat (65 + Z.to_nat (n mod 26))).
    destruct (IH (n / 26) (String c acc)) as (t & Ht & Hw & Hlen & Hv).
    exists (t ++ String c ""). rewrite Ht, append_assoc'. split; [reflexivity|].
    assert (Hc : Z.of_nat (nat_of_ascii c) - 65 = n mod 26).
    { unfold c. rewrite nat_ascii_embedding by lia. lia. }
    clearbody c.
    split; [|split].
    + rewrite well_formed_append, Hw. cbn [well_formed andb]. unfold is_letter.
      rewrite andb_true_r.
      apply andb_true_intro; split; apply Nat.leb_le; lia.
    + rewrite length_append', Hlen. cbn [String.length]. lia.
    + unfold base26_value in *. rewrite base26_acc_append, Hv. cbn [base26_acc].
      rewrite Hc, Nat2Z.inj_succ, Z.pow_succ_r by lia.
      rewrite mod_26_mul by (apply Z.pow_pos_nonneg; lia).
      lia.
Qed.

Lemma append_nil' (s : string) : s ++ "" = s.
Proof. induction s as [|c s IH]; simpl; congruence. Qed.


Lemma encode_value_gen (alphalen : Z -> Z) (n F : Z) :
  floorval (alphalen n) = Some F ->
  exists s, encode alphalen n = Some s /\ well_formed s = true /\
    String.length s = Z.to_nat (alphalen n) /\
    base26_value s = (n - F) mod 26 ^ Z.of_nat (String.length s).
Proof.
  intros HF. unfold encode. rewrite HF.
  destruct (encode_digits_value (Z.to_nat (alphalen n)) (n - F) "") as (s & Hs & Hw & Hl & Hv).
  rewrite append_nil' in Hs. exists s. rewrite Hl. auto.
Qed.

Lemma floorval_next (L : Z) : 0 <= L -> (26 ^ (L + 1) - 26) / 25 = (26 ^ L - 26) / 25 + 26 ^ L.
Proof.
  intros HL. rewrite Z.pow_add_r, Z.pow_1_r by lia.
  replace (26 ^ L * 26 - 26) with (26 ^ L - 26 + 26 ^ L * 25) by ring.
  apply Z.div_add. lia.
Qed.

(** ** Properties *)

(** Decode reads letters in either case: a string of 1 to 218 ASCII
    letters decodes, without raising, to [floorval(len)] plus the base-26
    value of its upper-cased letters, the same number as its upper-case
    form. *)
Theorem decode_any_case (s : string) :
  all_letters s = true -> (1 <= String.length s <= 218)%nat ->
  exists F, floorval (Z.of_nat (String.length s)) = Some F /\
    decode s = Some (F + base26_value (str_upper s)) /\ decode (str_upper s) = decode s.
Proof.
  intros Hl Hlen. destruct (floorval_some _ Hlen) as [F HF]. exists F.
  assert (Hd : forall u, String.length u = String.length s -> str_upper u = str_upper s ->
            decode u = Some (F + base26_value (str_upper s))).
  { intros u Hu Hup. unfold decode. rewrite Hu, HF, Hup.
    destruct (translate_letters (str_upper s) 0 (upper_all_letters s Hl)) as (t & Ht & Htl & Hv).
    rewrite Ht. destruct t as [|d t']; [rewrite length_upper in Htl; simpl in Htl; lia|].
    unfold int_base. rewrite Hv. reflexivity. }
  split; [exact HF|]. split.
  - apply Hd; reflexivity.
  - rewrite (Hd s eq_refl eq_refl). apply Hd; [apply length_upper|apply upper_idem, Hl].
Qed.

(** Decode raises on the empty string ([int('', 26)]), on a string with
    an ASCII character that is not a letter ([str.index]), and on every
    string of 219 characters or more ([floorval] overflows). *)
Theorem decode_raises (s : string) :
  s = "" \/
  (exists c, In c (list_ascii_of_string s) /\ (nat_of_ascii c < 128)%nat /\
     is_ascii_letter c = false) \/
  (219 <= String.length s)%nat ->
  decode s = None.
Proof.
  intros [->|[(c & Hin & Hc & Hnl)|Hlong]].
  - vm_compute. reflexivity.
  - unfold decode. destruct (floorval (Z.of_nat (String.length s))); [|reflexivity].
    rewrite (translate_none (str_upper s) c); [reflexivity|apply in_upper; assumption|].
    destruct (is_letter c) eqn:E; [|reflexivity].
    rewrite (letter_is_ascii_letter c E) in Hnl. discriminate.
  - unfold decode. rewrite floorval_none by lia. reflexivity.
Qed.

(** Encode, whatever length [L] its floating-point logarithm yields for
    [n], returns [L] letters (none when [L <= 0]) spelling
    [(n - floorval(L)) mod 26^L] in base 26, or raises when [floorval(L)]
    does: a length that is too small wraps around instead of failing. *)
Theorem encode_value (alphalen : Z -> Z) (n F : Z) :
  floorval (alphalen n) = Some F ->
  exists s, encode alphalen n = Some s /\ well_formed s = true /\
    String.length s = Z.to_nat (alphalen n) /\
    base26_value s = (n - F) mod 26 ^ Z.of_nat (String.length s).
Proof. apply encode_value_gen. Qed.

(** Round trip from integers, up to 12 letters: when the length computed
    for [n] is the [L] with [floorval(L) <= n < floorval(L + 1)], encode
    returns a string that decodes back to [n]. *)
Theorem decode_encode (alphalen : Z -> Z) (n L : Z) :
  1 <= L <= 12 -> alphalen n = L ->
  (26 ^ L - 26) / 25 <= n < (26 ^ (L + 1) - 26) / 25 ->
  exists s, encode alphalen n = Some s /\ decode s = Some n.
Proof.
  intros HL Ha Hn. rewrite floorval_next in Hn by lia.
  assert (HF : floorval (alphalen n) = Some ((26 ^ L - 26) / 25))
    by (rewrite Ha; apply floorval_exact; lia).
  destruct (encode_value_gen alphalen n _ HF) as (s & Hs & Hw & Hl & Hv).
  exists s. split; [exact Hs|].
  rewrite Ha in Hl. rewrite decode_letters by (auto; lia).
  rewrite Hv, Hl, Z2Nat.id, Z.mod_small by lia. f_equal. lia.
Qed.


Lemma decode_any_case_witness :
  all_letters "aYl" = true /\ (1 <= String.length "aYl" <= 218)%nat /\
  decode "aYl" = Some 1337 /\
  exists F, floorval (Z.of_nat (String.length "aYl")) = Some F /\
    decode "aYl" = Some (F + base26_value (str_upper "aYl")) /\
    decode (str_upper "aYl") = decode "aYl".
Proof.
  split; [reflexivity|]. split; [simpl; lia|]. split; [vm_compute; reflexivity|].
  apply decode_any_case; [reflexivity|simpl; lia].
Defined.

Lemma decode_raises_witness :
  ("A1" = "" \/
   (exists c, In c (list_ascii_of_string "A1") /\ (nat_of_ascii c < 128)%nat /\
      is_ascii_letter c = false) \/
   (219 <= String.length "A1")%nat) /\
  decode "A1" = None.
Proof.
  assert (H : "A1" = "" \/
   (exists c, In c (list_ascii_of_string "A1") /\ (nat_of_ascii c < 128)%nat /\
      is_ascii_letter c = false) \/
   (219 <= String.length "A1")%nat).
  { right. left. exists "1"%char. split; [right; left; reflexivity|].
    split; [vm_compute; lia|reflexivity]. }
  split; [exact H|]. apply decode_raises. exact H.
Defined.

Lemma encode_value_witness :
  floorval ((fun _ : Z => 1) 30) = Some 0 /\
  encode (fun _ => 1) 30 = Some "E" /\
  exists s, encode (fun _ => 1) 30 = Some s /\ well_formed s = true /\
    String.length s = Z.to_nat ((fun _ : Z => 1) 30) /\
    base26_value s = (30 - 0) mod 26 ^ Z.of_nat (String.length s).
Proof.
  split; [vm_compute; reflexivity|]. split; [vm_compute; reflexivity|].
  apply encode_value. vm_compute. reflexivity.
Defined.

Lemma decode_encode_witness :
  1 <= 3 <= 12 /\ (fun _ : Z => 3) 1337 = 3 /\
  (26 ^ 3 - 26) / 25 <= 1337 < (26 ^ (3 + 1) - 26) / 25 /\
  encode (fun _ => 3) 1337 = Some "AYL" /\
  exists s, encode (fun _ => 3) 1337 = Some s /\ decode s = Some 1337.
Proof.
  split; [lia|]. split; [reflexivity|].
  assert (H : (26 ^ 3 - 26) / 25 <= 1337 < (26 ^ (3 + 1) - 26) / 25) by (split; [apply Z.leb_le|apply Z.ltb_lt]; reflexivity).
  split; [exact H|]. split; [vm_compute; reflexivity|].
  apply (decode_encode (fun _ => 3) 1337 3); [lia|reflexivity|exact H].
Defined.


End AlphaIndexMore2.

(* ------------------------------------------------------------------ *)
(** ** The CPU player of [nimplay] *)

Module NimPlayFacts.
Import NimWin NimWinFacts AlphaIndex NimGen NimGenFacts NimWinMore.

Lemma int_true_div_half (p : Z) : 0 <= p < 2 ^ 53 -> int_true_div p 2 = Some (p / 2).
Proof.
  intros Hp. unfold int_true_div. destruct (Z.eqb_spec p 0) as [->|Hp0]; [reflexivity|].
  change (2 =? 0) with false. cbv iota.
  rewrite (Z.sgn_pos p) by lia. change (Z.sgn 2) with 1. rewrite (Z.abs_eq p) by lia.
  change (Z.abs 2) with 2.
  assert (HL : 0 <= Z.log2 p <= 52).
  { split; [apply Z.log2_nonneg|]. apply Z.lt_succ_r. apply Z.log2_lt_pow2; lia. }
  pose proof (Z.log2_spec p ltac:(lia)) as [Hlo _].
  unfold round_pos_quotient. change (Z.log2 2) with 1.
  set (L := Z.log2 p) in *.
  replace (L - 1 - 52) with (- (53 - L)) by lia.
  rewrite Z.opp_involutive.
  destruct (Z.leb_spec 0 (- (53 - L))) as [|_]; [lia|].
  assert (E53 : p * 2 ^ (53 - L) = (p * 2 ^ (52 - L)) * 2)
    by (replace (53 - L) with (Z.succ (52 - L)) by lia; rewrite Z.pow_succ_r by lia; ring).
  rewrite E53, Z.div_mul by lia.
  assert (Hm : 2 ^ 52 <= p * 2 ^ (52 - L)).
  { replace (2 ^ 52) with (2 ^ L * 2 ^ (52 - L)) by (rewrite <- Z.pow_add_r; [f_equal; lia|lia|lia]).
    apply Z.mul_le_mono_nonneg_r; [apply Z.pow_nonneg|]; lia. }
  destruct (Z.ltb_spec (p * 2 ^ (52 - L)) (2 ^ 52)) as [|_]; [lia|].
  destruct (Z.leb_spec 0 (- (53 - L))) as [|_]; [lia|].
  rewrite Z.opp_involutive, E53, Z.div_mul, Z.mod_mul by lia.
  simpl.
  replace (2 ^ (53 - L)) with (2 ^ (52 - L) * 2)
    by (replace (53 - L) with (Z.succ (52 - L)) by lia; rewrite Z.pow_succ_r by lia; ring).
  rewrite <- Z.div_div by (try apply Z.pow_pos_nonneg; lia).
  rewrite Z.div_mul by (apply Z.pow_nonzero; lia). f_equal; ring.
Qed.

Lemma candidates_legal piles misere r opts :
  Forall (fun p => 0 <= p) piles -> nimwin piles misere = Some (r, opts) ->
  opts <> [] ->
  r <> 0 /\ forall i, In i opts -> exists p, piles !! i = Some p /\
    (1 <= r <= p \/ (misere = true /\ p = 0 /\ r = 1 /\ Forall (fun q => q <= 1) piles)).
Proof.
  intros Hnn Hw Hne.
  assert (Hbias0 : misere_bias piles misere = 0 ->
    r <> 0 /\ forall i, In i opts -> exists p, piles !! i = Some p /\ 1 <= r <= p).
  { intros Hb. destruct (nimwin_cases _ _ _ _ Hw) as (x & Hr & [(_ & _ & ->)|(Hc & m & Hs & ->)]);
      [congruence|].
    destruct (reduce_xor_some piles x Hr) as [Hpne Hx].
    assert (Hx0 : 0 <= x) by (subst; apply xor_all_nonneg; auto).
    pose proof (scan_facts piles x Hnn Hpne Hx0) as Hf. rewrite Hs in Hf.
    destruct Hf as (_ & _ & Hall & Hcand). rewrite Hb in *.
    assert (Hpos : 0 < x - 2 * m) by (apply (removal_pos piles); auto; lia).
    split; [lia|]. intros i Hi. destruct (Hcand i Hi) as (p & Hp & Hm).
    exists p. split; [exact Hp|].
    pose proof (candidate_bound x p Hx0 (Forall_lookup_1 _ _ _ _ Hnn Hp)). lia. }
  destruct misere.
  - destruct (Z.le_gt_cases (count_if (fun p => 1 <? p) piles) 1) as [Hend|Hbusy].
    + destruct (misere_endgame_core piles r opts Hnn Hend Hw) as (_ & _ & Hc).
      destruct opts as [|j0 o0]; [congruence|].
      split.
      * destruct (Hc j0 (or_introl eq_refl)) as (p & _ & [(_ & -> & _)|(Hr & _)]); lia.
      * intros i Hi. destruct (Hc i Hi) as (p & Hp & [(H0 & H1 & H2)|(Hr & _)]);
          exists p; split; auto.
    + destruct Hbias0 as [Hr Hc]; [apply misere_bias_busy; lia|].
      split; [exact Hr|]. intros i Hi. destruct (Hc i Hi) as (p & ? & ?). eauto.
  - destruct Hbias0 as [Hr Hc]; [apply misere_bias_false|].
    split; [exact Hr|]. intros i Hi. destruct (Hc i Hi) as (p & ? & ?). eauto.
Qed.

Lemma nimwin_some piles misere :
  piles <> [] -> exists r opts, nimwin piles misere = Some (r, opts).
Proof.
  intros Hne. unfold nimwin. rewrite (reduce_xor_all piles Hne).
  destruct (negb (xor_all piles + misere_bias piles misere =? 0));
    [destruct (scan (xor_all piles) 0 piles (xor_all piles) [])|]; eauto.
Qed.

Lemma nimwin_no_candidates piles misere r :
  Forall (fun p => 0 <= p) piles -> nimwin piles misere = Some (r, []) ->
  r = 0 /\ exists x, reduce_xor piles = Some x /\ x + misere_bias piles misere = 0.
Proof.
  intros Hnn Hw. destruct (nimwin_cases _ _ _ _ Hw) as (x & Hr & [(Hc & -> & _)|(Hc & m & Hs & _)]).
  - eauto.
  - destruct (reduce_xor_some piles x Hr) as [Hpne Hx].
    assert (Hx0 : 0 <= x) by (subst; apply xor_all_nonneg; auto).
    pose proof (scan_facts piles x Hnn Hpne Hx0) as Hf. rewrite Hs in Hf.
    destruct Hf as [[] _]. reflexivity.
Qed.

Lemma count_small_zero l :
  Forall (fun p => p <= 1) l -> count_if (fun p => 1 <? p) l = 0.
Proof.
  induction 1 as [|q l Hq _ IH]; [reflexivity|].
  rewrite count_if_cons, IH. destruct (Z.ltb_spec 1 q); [lia|reflexivity].
Qed.

Lemma filter_all {A} (f : A -> bool) (l : list A) :
  (forall y, In y l -> f y = true) -> List.filter f l = l.
Proof.
  induction l as [|y l IH]; intros H; simpl; [reflexivity|].
  rewrite (H y (or_introl eq_refl)), IH; [reflexivity|]. intros z Hz. apply H. right. exact Hz.
Qed.

(** With every pile at most one token and an even number of non-empty
    piles, misère [nimwin] removes one token and lists every index. *)
Lemma nimwin_misere_even_01 piles :
  piles <> [] -> Forall (fun q => 0 <= q <= 1) piles ->
  Z.even (count_if (fun p => 0 <? p) piles) = true ->
  nimwin piles true = Some (1, seq 0 (length piles)).
Proof.
  intros Hne H01 Hev.
  assert (Hodd : Z.odd (count_if (fun p => 0 <? p) piles) = false)
    by (rewrite <- Z.negb_even, Hev; reflexivity).
  assert (Hle : Forall (fun q => q <= 1) piles)
    by (revert H01; apply List.Forall_impl; intros; lia).
  assert (Hb : misere_bias piles true = 1).
  { rewrite misere_bias_endgame, Hodd; [reflexivity|]. rewrite count_small_zero by exact Hle; lia. }
  assert (Hx : xor_all piles = 0) by (rewrite xor_all_01, Hodd; auto).
  unfold nimwin. rewrite (reduce_xor_all piles Hne), Hx, Hb, scan_whole.
  assert (Hm : min_nimply 0 piles 0 = 0).
  { destruct (min_nimply_attained 0 piles 0) as [->|(q & _ & ->)]; [reflexivity|].
    unfold nimply. apply Z.land_0_l. }
  rewrite Hm. simpl. f_equal. f_equal. unfold indices_with.
  apply filter_all. intros j Hj. apply in_seq in Hj.
  destruct (lookup_lt_is_Some_2 piles j ltac:(lia)) as [p ->].
  unfold nimply. rewrite Z.land_0_l. reflexivity.
Qed.

Section Cpu.
Variable St : Type.
Variable randbelow : Z -> St -> Z * St.

Lemma in_nonempty_from i ps j :
  In j (nonempty_from i ps) <-> (i <= j)%nat /\ exists p, ps !! (j - i)%nat = Some p /\ 0 < p.
Proof.
  revert i. induction ps as [|q ps IH]; intros i; simpl.
  - split; [intros []|]. intros (_ & p & Hp & _). rewrite lookup_nil in Hp. discriminate.
  - destruct (Z.ltb_spec 0 q) as [Hq|Hq].
    + simpl. rewrite IH. split.
      * intros [<-|(Hij & p & Hp & Hp0)].
        -- split; [lia|]. exists q. rewrite Nat.sub_diag. auto.
        -- split; [lia|]. exists p. replace (j - i)%nat with (S (j - S i)) by lia. auto.
      * intros (Hij & p & Hp & Hp0). destruct (Nat.eq_dec i j) as [->|Hne]; [left; reflexivity|].
        right. split; [lia|]. exists p. replace (j - i)%nat with (S (j - S i)) in Hp by lia. auto.
    + rewrite IH. split.
      * intros (Hij & p & Hp & Hp0). split; [lia|]. exists p.
        replace (j - i)%nat with (S (j - S i)) by lia. auto.
      * intros (Hij & p & Hp & Hp0). destruct (Nat.eq_dec i j) as [->|Hne].
        -- rewrite Nat.sub_diag in Hp. simpl in Hp. injection Hp as ->. lia.
        -- split; [lia|]. exists p. replace (j - i)%nat with (S (j - S i)) in Hp by lia. auto.
Qed.

Lemma in_nonempty_from_0 ps j :
  In j (nonempty_from 0 ps) <-> exists p, ps !! j = Some p /\ 0 < p.
Proof. rewrite in_nonempty_from, Nat.sub_0_r. split; [intros [_ H]; exact H|intros H; split; [lia|exact H]]. Qed.

Lemma choice_in {A} (l : list A) s y s' :
  choice randbelow l s = Some (y, s') -> In y l.
Proof.
  unfold choice. destruct l as [|y0 l0] eqn:El; [discriminate|]. rewrite <- El.
  unfold bind, draw_below. destruct (randbelow (Z.of_nat (length l)) s) as [r s1].
  destruct (py_index l r) as [z|] eqn:Ez; [|discriminate].
  unfold ret. intros H. injection H as <- _.
  apply list_elem_of_In.
  unfold py_index in Ez. destruct (r <? 0); eapply list_elem_of_lookup_2; exact Ez.
Qed.

Lemma cpu_move_inv piles misere s i r s' :
  cpu_move randbelow piles misere s = Some ((i, r), s') ->
  exists remv opts, nimwin piles misere = Some (remv, opts) /\
    In i (match opts with [] => nonempty_from 0 piles | _ => opts end) /\
    ((remv <> 0 /\ r = remv) \/
     (remv = 0 /\ exists p h s1, piles !! i = Some p /\ int_true_div p 2 = Some h /\
        randint randbelow 1 (h + 1) s1 = Some (r, s'))).
Proof.
  unfold cpu_move. destruct (nimwin piles misere) as [[remv opts]|]; [|discriminate].
  set (sel := match opts with [] => nonempty_from 0 piles | _ => opts end).
  unfold bind at 1. destruct (choice randbelow sel s) as [[j s1]|] eqn:Ec; [|discriminate].
  pose proof (choice_in sel s j s1 Ec) as Hj.
  intros H. exists remv, opts. split; [reflexivity|].
  destruct (Z.eqb_spec remv 0) as [->|Hr].
  - destruct (piles !! j) as [p|] eqn:Ep; [|discriminate].
    destruct (int_true_div p 2) as [h|] eqn:Eh; [|discriminate].
    unfold bind in H. destruct (randint randbelow 1 (h + 1) s1) as [[v s2]|] eqn:Er; [|discriminate].
    unfold ret in H. injection H as <- <- <-. split; [exact Hj|].
    right. split; [reflexivity|]. exists p, h, s1. auto.
  - unfold ret in H. injection H as <- <- <-. split; [exact Hj|]. left. auto.
Qed.

Lemma cpu_turn_inv piles misere s piles' s' :
  cpu_turn randbelow piles misere s = Some (piles', s') ->
  exists i r p, cpu_move randbelow piles misere s = Some ((i, r), s') /\
    piles !! i = Some p /\ piles' = <[i := p - r]> piles.
Proof.
  unfold cpu_turn, bind. destruct (cpu_move randbelow piles misere s) as [[[i r] s1]|]; [|discriminate].
  destruct (piles !! i) as [p|] eqn:Ep; [|discriminate].
  unfold ret. intros H. injection H as <- <-. exists i, r, p. auto.
Qed.

Hypothesis randbelow_range : forall n s, 0 < n -> 0 <= fst (randbelow n s) < n.

Lemma randint_range a b s v s' :
  randint randbelow a b s = Some (v, s') -> a <= v <= b.
Proof.
  unfold randint. destruct (Z.ltb_spec 0 (b + 1 - a)) as [Hw|]; [|discriminate].
  pose proof (randbelow_range (b + 1 - a) s Hw) as Hr.
  unfold bind, draw_below, ret. destruct (randbelow (b + 1 - a) s) as [w s1].
  simpl in Hr. intros H. injection H as <- _. lia.
Qed.

(** ** Properties *)

(** On every position of non-negative piles (below 2^53) with a token
    left, the CPU's turn picks a move without raising, and every move it
    can pick removes between 1 and all the tokens of an existing pile;
    the one exception is the misère endgame where every pile holds at
    most one token, where it may remove 1 token from an empty pile. *)
Theorem cpu_move_legal (piles : list Z) (misere : bool) (s : St) :
  Forall (fun p => 0 <= p < 2 ^ 53) piles -> (exists p, In p piles /\ 0 < p) ->
  (exists mv s', cpu_move randbelow piles misere s = Some (mv, s')) /\
  forall i r s', cpu_move randbelow piles misere s = Some ((i, r), s') ->
    exists p, piles !! i = Some p /\
      (1 <= r <= p \/ (misere = true /\ p = 0 /\ r = 1 /\ Forall (fun q => q <= 1) piles)).
Proof.
  intros Hb (p0 & Hp0 & Hpos0).
  assert (Hnn : Forall (fun p => 0 <= p) piles) by (revert Hb; apply List.Forall_impl; lia).
  assert (Hsel : nonempty_from 0 piles <> []).
  { apply list_elem_of_In, list_elem_of_lookup_1 in Hp0 as [j Hj].
    assert (Hin : In j (nonempty_from 0 piles)) by (apply in_nonempty_from_0; eauto).
    destruct (nonempty_from 0 piles); [destruct Hin|discriminate]. }
  split.
  - assert (Hne : piles <> []) by (destruct piles; [destruct Hp0|discriminate]).
    destruct (nimwin_some piles misere Hne) as (r & opts & Hw).
    unfold cpu_move. rewrite Hw.
    set (sel := match opts with [] => nonempty_from 0 piles | _ => opts end).
    assert (Hsel' : sel <> []) by (unfold sel; destruct opts; [exact Hsel|discriminate]).
    destruct (choice_some St randbelow randbelow_range sel s Hsel') as (j & s1 & Hc & Hj).
    rewrite (bind_some St _ _ _ _ _ Hc).
    destruct (Z.eqb_spec r 0) as [->|Hr]; [|eexists _, _; reflexivity].
    destruct opts as [|k o].
    + apply in_nonempty_from_0 in Hj as (p & Hp & Hpp). rewrite Hp.
      rewrite int_true_div_half by (exact (Forall_lookup_1 _ _ _ _ Hb Hp)).
      destruct (randint_some St randbelow randbelow_range 1 (p / 2 + 1) s1) as (v & s2 & Hv & _);
        [pose proof (Z.div_pos p 2); lia|].
      rewrite (bind_some St _ _ _ _ _ Hv). eexists _, _; reflexivity.
    + destruct (candidates_legal piles misere 0 (k :: o) Hnn Hw ltac:(discriminate)). congruence.
  - intros i r s' Hm.
    destruct (cpu_move_inv piles misere s i r s' Hm)
      as (remv & opts & Hw & Hi & [(Hr & ->)|(-> & p & h & s1 & Hp & Hh & Hv)]).
    + destruct opts as [|k o].
      * destruct (nimwin_no_candidates piles misere remv Hnn Hw). contradiction.
      * destruct (candidates_legal piles misere remv (k :: o) Hnn Hw ltac:(discriminate))
          as [_ Hc].
        exact (Hc i Hi).
    + destruct opts as [|k o].
      * apply in_nonempty_from_0 in Hi as (p' & Hp' & Hpp). rewrite Hp in Hp'.
        injection Hp' as <-. rewrite int_true_div_half in Hh
          by (exact (Forall_lookup_1 _ _ _ _ Hb Hp)).
        injection Hh as <-. apply randint_range in Hv.
        exists p. split; [exact Hp|]. left.
        pose proof (Z.div_pos p 2). pose proof (Z.mul_div_le p 2). lia.
      * destruct (candidates_legal piles misere 0 (k :: o) Hnn Hw ltac:(discriminate)).
        congruence.
Qed.

(** When [nimwin] finds no move to take control ([(0, ())]), the CPU
    takes from a non-empty pile [p] a random amount between 1 and
    [p / 2 + 1] (piles below 2^53, where the float halving is exact). *)
Theorem cpu_move_no_control (piles : list Z) (misere : bool) (s : St) i r s' :
  Forall (fun p => p < 2 ^ 53) piles -> nimwin piles misere = Some (0, []) ->
  cpu_move randbelow piles misere s = Some ((i, r), s') ->
  exists p, piles !! i = Some p /\ 0 < p /\ 1 <= r <= p / 2 + 1.
Proof.
  intros Hb Hw Hm.
  destruct (cpu_move_inv piles misere s i r s' Hm)
    as (remv & opts & Hw' & Hi & Hcase).
  rewrite Hw in Hw'. injection Hw' as <- <-.
  destruct Hcase as [[[] _]|(_ & p & h & s1 & Hp & Hh & Hv)]; [reflexivity|].
  apply in_nonempty_from_0 in Hi as (p' & Hp' & Hpp). rewrite Hp in Hp'. injection Hp' as <-.
  rewrite int_true_div_half in Hh by (split; [lia|exact (Forall_lookup_1 _ _ _ _ Hb Hp)]).
  injection Hh as <-. apply randint_range in Hv. eauto.
Qed.

(** Normal play: from a position of non-negative piles with a nonzero
    XOR, every turn the CPU can play leaves non-negative piles with XOR 0. *)
Theorem cpu_turn_normal_wins (piles : list Z) (s : St) piles' s' :
  Forall (fun p => 0 <= p) piles -> xor_all piles <> 0 ->
  cpu_turn randbelow piles false s = Some (piles', s') ->
  xor_all piles' = 0 /\ Forall (fun p => 0 <= p) piles'.
Proof.
  intros Hnn Hx0 Ht.
  destruct (cpu_turn_inv piles false s piles' s' Ht) as (i & r & p & Hm & Hp & ->).
  destruct (cpu_move_inv piles false s i r s' Hm)
    as (remv & opts & Hw & Hi & Hcase).
  destruct opts as [|k o].
  - destruct (nimwin_no_candidates piles false remv Hnn Hw) as (_ & x & Hr & Hc).
    rewrite misere_bias_false in Hc. destruct (reduce_xor_some piles x Hr) as [_ ->]. lia.
  - destruct (candidates_legal piles false remv (k :: o) Hnn Hw ltac:(discriminate)) as [Hr0 _].
    destruct Hcase as [(_ & ->)|(-> & _)]; [|congruence].
    destruct (nimwin_cases _ _ _ _ Hw) as (x & Hr & [(_ & _ & Ho)|(Hc & m & Hs & ->)]);
      [discriminate|].
    destruct (reduce_xor_some piles x Hr) as [Hne Hx].
    assert (Hx0' : 0 <= x) by (subst; apply xor_all_nonneg; auto).
    pose proof (scan_facts piles x Hnn Hne Hx0') as Hf. rewrite Hs in Hf.
    destruct Hf as (_ & _ & _ & Hcand).
    destruct (Hcand i Hi) as (p' & Hp' & Hm'). rewrite Hp in Hp'. injection Hp' as <-.
    rewrite misere_bias_false, Z.add_0_r, <- Hm'.
    pose proof (sub_nimply_xor x p) as Hsub.
    pose proof (candidate_bound x p Hx0' (Forall_lookup_1 _ _ _ _ Hnn Hp)).
    split.
    + rewrite (xor_all_insert piles i p _ Hp), <- Hx, Hsub.
      apply Z.lxor_nilpotent.
    + apply Forall_insert; [exact Hnn|]. lia.
Qed.

(** Misère endgame (at most one pile above one token, non-negative
    piles): from a position not lost for the player to move, every turn
    the CPU can play either leaves a lost position for the human (every
    pile at most one token, an odd number of non-empty piles), or turns
    an empty pile into -1. *)
Theorem cpu_turn_misere_endgame (piles : list Z) (s : St) piles' s' :
  Forall (fun p => 0 <= p) piles -> count_if (fun p => 1 <? p) piles <= 1 ->
  ~ misere_lost piles ->
  cpu_turn randbelow piles true s = Some (piles', s') ->
  misere_lost piles' \/ exists i, piles !! i = Some 0 /\ piles' = <[i := -1]> piles.
Proof.
  intros Hnn Hend Hnl Ht.
  destruct (cpu_turn_inv piles true s piles' s' Ht) as (i & r & p & Hm & Hp & ->).
  destruct (cpu_move_inv piles true s i r s' Hm) as (remv & opts & Hw & Hi & Hcase).
  destruct (misere_endgame_core piles remv opts Hnn Hend Hw) as (Hl & _ & Hc).
  destruct opts as [|k o]; [exfalso; apply Hnl, Hl; reflexivity|].
  destruct (candidates_legal piles true remv (k :: o) Hnn Hw ltac:(discriminate)) as [Hr0 _].
  destruct Hcase as [(_ & ->)|(-> & _)]; [|congruence].
  destruct (Hc i Hi) as (p' & Hp' & [(Hp0 & Hr1 & _)|(_ & Hlost)]);
    rewrite Hp in Hp'; injection Hp' as <-.
  - right. exists i. rewrite Hp. split; [congruence|]. f_equal. lia.
  - left. exact Hlost.
Qed.

End Cpu.

Section CpuSpent.
Variable St : Type.
Variable randbelow : Z -> St -> Z * St.

(** Misère play with every pile at most one token and an even number of
    non-empty piles: every index is a candidate, so when the draw picks
    an empty pile the CPU removes one token from it and leaves -1 there. *)
Theorem cpu_turn_spent_pile (piles : list Z) (i : nat) (s : St) :
  Forall (fun q => 0 <= q <= 1) piles ->
  Z.even (count_if (fun p => 0 <? p) piles) = true ->
  piles !! i = Some 0 ->
  fst (randbelow (Z.of_nat (length piles)) s) = Z.of_nat i ->
  cpu_turn randbelow piles true s =
  Some (<[i := -1]> piles, snd (randbelow (Z.of_nat (length piles)) s)).
Proof.
  intros H01 Hev Hi Hdraw.
  assert (Hne : piles <> []) by (destruct piles; [rewrite lookup_nil in Hi; discriminate|discriminate]).
  pose proof (lookup_lt_Some _ _ _ Hi) as Hlt.
  unfold cpu_turn, cpu_move. rewrite (nimwin_misere_even_01 piles Hne H01 Hev).
  destruct (seq 0 (length piles)) as [|j0 o] eqn:Eseq;
    [destruct piles; [congruence|discriminate]|].
  cbv [bind choice draw_below ret raise]. rewrite <- Eseq, length_seq.
  destruct (randbelow (Z.of_nat (length piles)) s) as [d s1].
  simpl in Hdraw |- *. subst d.
  unfold py_index. destruct (Z.ltb_spec (Z.of_nat i) 0) as [|_]; [lia|].
  rewrite Nat2Z.id, lookup_seq_lt by exact Hlt. simpl. rewrite Hi. reflexivity.
Qed.

End CpuSpent.

Lemma script_below_range : forall n s, 0 < n -> 0 <= fst (script_below n s) < n.
Proof. intros n [|r s] Hn; simpl; [lia|]. apply Z.mod_pos_bound. exact Hn. Qed.

Lemma cpu_move_legal_witness :
  (forall n s, 0 < n -> 0 <= fst (script_below n s) < n) /\
  Forall (fun p => 0 <= p < 2 ^ 53) [2; 2] /\ (exists p, In p [2; 2] /\ 0 < p) /\
  (exists mv s', cpu_move script_below [2; 2] false [3; 5] = Some (mv, s')) /\
  forall i r s', cpu_move script_below [2; 2] false [3; 5] = Some ((i, r), s') ->
    exists p, [2; 2] !! i = Some p /\
      (1 <= r <= p \/ (false = true /\ p = 0 /\ r = 1 /\ Forall (fun q => q <= 1) [2; 2])).
Proof.
  split; [exact script_below_range|].
  assert (Hb : Forall (fun p => 0 <= p < 2 ^ 53) [2; 2]) by (repeat constructor; lia).
  assert (He : exists p, In p [2; 2] /\ 0 < p) by (exists 2; split; [left; reflexivity|lia]).
  split; [exact Hb|]. split; [exact He|].
  exact (cpu_move_legal (list Z) script_below script_below_range [2; 2] false [3; 5] Hb He).
Defined.

Lemma cpu_move_no_control_witness :
  (forall n s, 0 < n -> 0 <= fst (script_below n s) < n) /\
  Forall (fun p => p < 2 ^ 53) [2; 2] /\ nimwin [2; 2] false = Some (0, []) /\
  cpu_move script_below [2; 2] false [3; 5] = Some ((1%nat, 2), []) /\
  exists p, [2; 2] !! 1%nat = Some p /\ 0 < p /\ 1 <= 2 <= p / 2 + 1.
Proof.
  assert (Hb : Forall (fun p => p < 2 ^ 53) [2; 2]) by (repeat constructor; lia).
  assert (Hm : cpu_move script_below [2; 2] false [3; 5] = Some ((1%nat, 2), [])) by reflexivity.
  split; [exact script_below_range|]. split; [exact Hb|]. split; [reflexivity|].
  split; [exact Hm|].
  exact (cpu_move_no_control (list Z) script_below script_below_range [2; 2] false [3; 5]
           1%nat 2 [] Hb eq_refl Hm).
Defined.

Lemma cpu_turn_normal_wins_witness :
  Forall (fun p => 0 <= p) [4; 2; 1] /\ xor_all [4; 2; 1] <> 0 /\
  cpu_turn script_below [4; 2; 1] false [0] = Some ([3; 2; 1], []) /\
  xor_all [3; 2; 1] = 0 /\ Forall (fun p => 0 <= p) [3; 2; 1].
Proof.
  assert (Hn : Forall (fun p => 0 <= p) [4; 2; 1]) by (repeat constructor; lia).
  assert (Hx : xor_all [4; 2; 1] <> 0) by discriminate.
  assert (Ht : cpu_turn script_below [4; 2; 1] false [0] = Some ([3; 2; 1], [])) by reflexivity.
  split; [exact Hn|]. split; [exact Hx|]. split; [exact Ht|].
  exact (cpu_turn_normal_wins (list Z) script_below [4; 2; 1] [0] [3; 2; 1] [] Hn Hx Ht).
Defined.

Lemma cpu_turn_misere_endgame_witness :
  Forall (fun p => 0 <= p) [1; 2; 1] /\ count_if (fun p => 1 <? p) [1; 2; 1] <= 1 /\
  ~ misere_lost [1; 2; 1] /\
  cpu_turn script_below [1; 2; 1] true [0] = Some ([1; 1; 1], []) /\
  (misere_lost [1; 1; 1] \/
   exists i, [1; 2; 1] !! i = Some 0 /\ [1; 1; 1] = <[i := -1]> [1; 2; 1]).
Proof.
  assert (Hn : Forall (fun p => 0 <= p) [1; 2; 1]) by (repeat constructor; lia).
  assert (Hc : count_if (fun p => 1 <? p) [1; 2; 1] <= 1) by (vm_compute; discriminate).
  assert (Hl : ~ misere_lost [1; 2; 1]).
  { intros [Hf _]. apply Forall_inv_tail, Forall_inv in Hf. lia. }
  assert (Ht : cpu_turn script_below [1; 2; 1] true [0] = Some ([1; 1; 1], [])) by reflexivity.
  split; [exact Hn|]. split; [exact Hc|]. split; [exact Hl|]. split; [exact Ht|].
  exact (cpu_turn_misere_endgame (list Z) script_below [1; 2; 1] [0] [1; 1; 1] [] Hn Hc Hl Ht).
Defined.

Lemma cpu_turn_spent_pile_witness :
  Forall (fun q => 0 <= q <= 1) [0; 1; 1] /\
  Z.even (count_if (fun p => 0 <? p) [0; 1; 1]) = true /\
  [0; 1; 1] !! 0%nat = Some 0 /\
  fst (script_below (Z.of_nat (length [0; 1; 1])) [0]) = Z.of_nat 0 /\
  cpu_turn script_below [0; 1; 1] true [0] =
  Some (<[0%nat := -1]> [0; 1; 1], snd (script_below (Z.of_nat (length [0; 1; 1])) [0])).
Proof.
  assert (H01 : Forall (fun q => 0 <= q <= 1) [0; 1; 1]) by (repeat constructor; lia).
  split; [exact H01|]. split; [reflexivity|]. split; [reflexivity|]. split; [reflexivity|].
  exact (cpu_turn_spent_pile (list Z) script_below [0; 1; 1] 0%nat [0] H01 eq_refl eq_refl eq_refl).
Defined.

End NimPlayFacts.

(* ------------------------------------------------------------------ *)
(** ** The balancing pile of [nimgen] *)


Module NimGenMore.
Import NimWin NimWinFacts NimGen NimGenFacts.

Section Balance.
Variable St : Type.
Variable seed_state : Z -> St.
Variable randbelow : Z -> St -> Z * St.
Hypothesis randbelow_range : forall n s, 0 < n -> 0 <= fst (randbelow n s) < n.

(** The generated position: the drawn piles [piles0], and the pile that
    is appended when their controllability does not match [fairstart]:
    a fresh draw in [2, 12] when a fair start is asked of a lost
    position, and exactly the XOR of the drawn piles when an unfair start
    is asked of a won one. *)
Theorem nimgen_balancing_pile (seed : option Z) (f : bool) (st : St) :
  exists piles0 piles s st',
    nimgen seed_state randbelow seed f st = Some ((piles, s), st') /\
    (3 <= length piles0 <= 6)%nat /\ Forall (fun p => 2 <= p <= 12) piles0 /\
    ((piles = piles0 /\ (f = true <-> xor_all piles0 <> 0)) \/
     (f = true /\ xor_all piles0 = 0 /\ exists b, piles = piles0 ++ [b] /\ 2 <= b <= 12) \/
     (f = false /\ xor_all piles0 <> 0 /\ piles = piles0 ++ [xor_all piles0])).
Proof.
  assert (Hs : exists s st1,
    (match seed with None => randrange randbelow maxsize | Some s => ret s end) st
      = Some (s, st1)).
  { destruct seed as [s|]; [exists s, st; reflexivity|].
    unfold randrange. replace (0 <? maxsize) with true by reflexivity.
    unfold draw_below. destruct (randbelow maxsize st) as [s st1]. eauto. }
  destruct Hs as (s & st1 & Hs).
  destruct (randint_some St randbelow randbelow_range minpiles (maxpiles - 1) (seed_state s))
    as (k & st2 & Hk & Hkr); [unfold minpiles, maxpiles; lia|].
  unfold minpiles, maxpiles in Hkr.
  set (zeros := repeat 0 (Z.to_nat k)).
  destruct (fill_some St randbelow randbelow_range (seq 0 (length zeros)) zeros st2)
    as (piles0 & st3 & Hfill & Hlen & Hrange).
  { intros j p Hj. left. apply in_seq. apply lookup_lt_Some in Hj. lia. }
  assert (Hlen0 : (3 <= length piles0 <= 6)%nat)
    by (rewrite Hlen; unfold zeros; rewrite repeat_length; lia).
  assert (Hnn : Forall (fun p => 0 <= p) piles0)
    by (revert Hrange; apply List.Forall_impl; intros; lia).
  assert (Hne : piles0 <> []) by (intros ->; simpl in Hlen0; lia).
  assert (Hr : reduce_xor piles0 = Some (xor_all piles0)) by (apply reduce_xor_all; exact Hne).
  set (x := xor_all piles0) in *.
  unfold nimgen.
  rewrite (bind_some St _ _ _ _ _ Hs). cbv beta.
  erewrite bind_some by reflexivity. cbv beta.
  rewrite (bind_some St _ _ _ _ _ Hk). cbv beta zeta. fold zeros.
  rewrite (bind_some St _ _ _ _ _ Hfill). cbv beta.
  destruct (nimwin_normal piles0 x Hnn Hr)
    as [[Hx0 Hw] | (Hx0 & m & opts & Hscan & Hw & Hpos & Hopts & Hc)];
    rewrite Hw; cbn beta iota.
  - destruct f.
    + replace (negb (Bool.eqb true (negb (0 =? 0)))) with true by reflexivity.
      destruct (choice_some St randbelow randbelow_range (seq 0 (length piles0)) st3)
        as (sel & st4 & Hch & Hin).
      { destruct piles0; [congruence|discriminate]. }
      rewrite (bind_some St _ _ _ _ _ Hch). cbv beta.
      apply in_seq in Hin.
      destruct (lookup_lt_is_Some_2 piles0 sel) as [p Hp]; [lia|]. rewrite Hp.
      rewrite Z.sub_0_r, Z.lxor_nilpotent.
      replace (negb (0 =? 0)) with false by reflexivity.
      destruct (randint_some St randbelow randbelow_range mintokens maxtokens st4)
        as (b & st5 & Hb & Hbr); [unfold mintokens, maxtokens; lia|].
      unfold mintokens, maxtokens in Hbr.
      rewrite (bind_some St _ _ _ _ _ Hb).
      exists piles0, (piles0 ++ [b]), s, st5. split; [reflexivity|].
      split; [exact Hlen0|]. split; [exact Hrange|].
      right. left. split; [reflexivity|]. split; [exact Hx0|]. exists b. auto.
    + replace (negb (Bool.eqb false (negb (0 =? 0)))) with false by reflexivity.
      exists piles0, piles0, s, st3. split; [reflexivity|].
      split; [exact Hlen0|]. split; [exact Hrange|].
      left. split; [reflexivity|]. split; [discriminate|]. intros H. contradiction.
  - assert (Hw0 : (x - 2 * m =? 0) = false) by (apply Z.eqb_neq; lia).
    rewrite Hw0. destruct f.
    + cbn [negb Bool.eqb]. cbn iota.
      exists piles0, piles0, s, st3. split; [reflexivity|].
      split; [exact Hlen0|]. split; [exact Hrange|].
      left. split; [reflexivity|]. split; [intros _; exact Hx0|reflexivity].
    + cbn [negb Bool.eqb]. cbn iota.
      replace (match opts with [] => seq 0 (length piles0) | _ :: _ => opts end)
        with opts by (destruct opts; [congruence|reflexivity]).
      destruct (choice_some St randbelow randbelow_range opts st3 Hopts)
        as (sel & st4 & Hch & Hin).
      rewrite (bind_some St _ _ _ _ _ Hch). cbv beta.
      destruct (Hc sel Hin) as (p & Hp & Hm & _). rewrite Hp.
      rewrite <- Hm, sub_nimply_xor, Z.lxor_assoc, Z.lxor_nilpotent, Z.lxor_0_r.
      replace (negb (x =? 0)) with true by (symmetry; apply negb_true_iff, Z.eqb_neq; exact Hx0).
      erewrite bind_some by reflexivity.
      exists piles0, (piles0 ++ [x]), s, st4. split; [reflexivity|].
      split; [exact Hlen0|]. split; [exact Hrange|].
      right. right. auto.
Qed.

End Balance.

Lemma nimgen_balancing_pile_witness :
  (forall n s, 0 < n -> 0 <= fst (script_below n s) < n) /\
  nimgen script_state script_below (Some 12345) false [] =
    Some (([2; 5; 11; 2; 14], 12345), [0; 0; 0]) /\
  xor_all [2; 5; 11; 2] = 14 /\
  exists piles0 piles s st',
    nimgen script_state script_below (Some 12345) false [] = Some ((piles, s), st') /\
    (3 <= length piles0 <= 6)%nat /\ Forall (fun p => 2 <= p <= 12) piles0 /\
    ((piles = piles0 /\ (false = true <-> xor_all piles0 <> 0)) \/
     (false = true /\ xor_all piles0 = 0 /\ exists b, piles = piles0 ++ [b] /\ 2 <= b <= 12) \/
     (false = false /\ xor_all piles0 <> 0 /\ piles = piles0 ++ [xor_all piles0])).
Proof.
  assert (Hr : forall n s, 0 < n -> 0 <= fst (script_below n s) < n).
  { intros n [|r s] Hn; simpl; [lia|]. apply Z.mod_pos_bound. exact Hn. }
  split; [exact Hr|]. split; [vm_compute; reflexivity|]. split; [reflexivity|].
  apply (nimgen_balancing_pile (list Z) script_state script_below Hr (Some 12345) false []).
Defined.

End NimGenMore.
